(** * xtbug: a shallow embedding of [xtbug.py]

    The producer ([XTBug]) pickles a name-sorted list of
    (name, rendered value) pairs and writes it to a named pipe that was
    opened non-blocking; the consumer ([_xterm_win]) unpickles one record
    per loop iteration, formats it and repaints the curses screen when
    the text changed.

    Python 2 [str] objects are byte strings: they are [string] here
    (a list of 8-bit [ascii]); the bytes travelling through the pipe are
    [list ascii]. *)

From Stdlib Require Import Ascii String.
From stdpp Require Import base option list sorting gmap strings pretty.

Local Open Scope char_scope.
Set Warnings "-register-all,-clear-no-such-hyp".

(** ** Exceptions and outcomes *)

(** The Python exceptions the modelled code can raise. *)
Inductive exn :=
| OSError | KeyError | EOFError | ValueError | IndexError
| AttributeError | TypeError | CursesError | KeyboardInterrupt.

(** The result of running a piece of the program: it returns, it raises,
    or (a blocking system call that cannot proceed) it suspends the
    caller. *)
Inductive outcome (A : Type) :=
| Ret (a : A)
| Raise (e : exn)
| Block.
Arguments Ret {A} a.
Arguments Raise {A} e.
Arguments Block {A}.

Global Instance exn_eq_dec : EqDecision exn.
Proof. solve_decision. Defined.

Global Instance outcome_ret : MRet outcome := λ A a, Ret a.

Global Instance outcome_bind : MBind outcome := λ A B k m,
  match m with
  | Ret a => k a
  | Raise e => Raise e
  | Block => Block
  end.

Global Instance outcome_fmap : FMap outcome := λ A B f m,
  match m with
  | Ret a => Ret (f a)
  | Raise e => Raise e
  | Block => Block
  end.

(** [try: m except e: h] for one exception class. *)
Definition try_except {A} (m : outcome A) (e : exn) (h : outcome A)
  : outcome A :=
  match m with
  | Raise e' => if decide (e' = e) then h else Raise e'
  | r => r
  end.

(** ** Python 2 byte strings *)

Module PyStr.

Definition nl : ascii := "010".
Definition tab : ascii := "009".
Definition cr : ascii := "013".
Definition bslash : ascii := "\".
Definition squote : ascii := "'".
Definition dquote : ascii := "034".
Definition NUL : ascii := "000".

Definition code (c : ascii) : N := N_of_ascii c.

(** [c in s] for a one-character [c]. *)
Fixpoint contains (c : ascii) (s : string) : bool :=
  match s with
  | EmptyString => false
  | String d s' => if decide (d = c) then true else contains c s'
  end.

Definition hex_digit (n : N) : ascii :=
  if (n <? 10)%N then ascii_of_N (48 + n) else ascii_of_N (87 + n).

(** The quote [repr] picks: a double quote when the string holds a single
    quote and no double quote, a single quote otherwise. *)
Definition repr_quote (s : string) : ascii :=
  if contains squote s && negb (contains dquote s) then dquote else squote.

(** One character of [repr(s)] between the quotes. *)
Definition repr_char (q c : ascii) : list ascii :=
  if decide (c = q ∨ c = bslash) then [bslash; c]
  else if decide (c = tab) then [bslash; "t"]
  else if decide (c = nl) then [bslash; "n"]
  else if decide (c = cr) then [bslash; "r"]
  else if ((code c <? 32) || (127 <=? code c))%N
       then [bslash; "x"; hex_digit (code c / 16); hex_digit (code c mod 16)]
  else [c].

Fixpoint repr_body (q : ascii) (s : string) : list ascii :=
  match s with
  | EmptyString => []
  | String c s' => repr_char q c ++ repr_body q s'
  end.

(** [repr(s)] of a byte string. *)
Definition repr (s : string) : list ascii :=
  let q := repr_quote s in q :: repr_body q s ++ [q].

Definition hex_val (c : ascii) : option N :=
  let n := code c in
  if ((48 <=? n) && (n <=? 57))%N then Some (n - 48)%N
  else if ((97 <=? n) && (n <=? 102))%N then Some (n - 87)%N
  else if ((65 <=? n) && (n <=? 70))%N then Some (n - 55)%N
  else None.

Definition oct_val (c : ascii) : option N :=
  let n := code c in
  if ((48 <=? n) && (n <=? 55))%N then Some (n - 48)%N else None.

(** The character a one-letter escape stands for. *)
Definition simple_escape (c : ascii) : option ascii :=
  if decide (c = bslash) then Some bslash
  else if decide (c = squote) then Some squote
  else if decide (c = dquote) then Some dquote
  else if decide (c = "b") then Some "008"
  else if decide (c = "f") then Some "012"
  else if decide (c = "t") then Some tab
  else if decide (c = "n") then Some nl
  else if decide (c = "r") then Some cr
  else if decide (c = "v") then Some "011"
  else if decide (c = "a") then Some "007"
  else None.

(** Put [c] in front of a decoded string. *)
Definition emit (c : ascii) (m : outcome string) : outcome string :=
  String c <$> m.

(** [rep.decode("string-escape")]: a backslash followed by a newline is
    dropped, the one-letter escapes, up to three octal digits, [\x] with
    two hexadecimal digits; an unknown escape keeps its backslash; a
    trailing backslash or a short [\x] raises [ValueError]. *)
Fixpoint decode_escape (l : list ascii) : outcome string :=
  match l with
  | [] => Ret EmptyString
  | c :: rest =>
    if decide (c = bslash) then
      match rest with
      | [] => Raise ValueError
      | e :: rest1 =>
        if decide (e = nl) then decode_escape rest1
        else match simple_escape e with
        | Some d => emit d (decode_escape rest1)
        | None =>
          match oct_val e with
          | Some o1 =>
            match rest1 with
            | e2 :: rest2 =>
              match oct_val e2 with
              | Some o2 =>
                match rest2 with
                | e3 :: rest3 =>
                  match oct_val e3 with
                  | Some o3 =>
                    emit (ascii_of_N (((o1 * 8 + o2) * 8 + o3) mod 256))
                         (decode_escape rest3)
                  | None =>
                    emit (ascii_of_N (o1 * 8 + o2)) (decode_escape rest2)
                  end
                | [] => Ret (String (ascii_of_N (o1 * 8 + o2)) EmptyString)
                end
              | None => emit (ascii_of_N o1) (decode_escape rest1)
              end
            | [] => Ret (String (ascii_of_N o1) EmptyString)
            end
          | None =>
            if decide (e = "x") then
              match rest1 with
              | h1 :: h2 :: rest2 =>
                match hex_val h1, hex_val h2 with
                | Some a, Some b =>
                  emit (ascii_of_N (a * 16 + b)) (decode_escape rest2)
                | _, _ => Raise ValueError
                end
              | _ => Raise ValueError
              end
            else emit bslash (emit e (decode_escape rest1))
          end
        end
      end
    else emit c (decode_escape rest)
  end.

(** [s[:n]]. *)
Fixpoint slice_to (n : nat) (s : string) : string :=
  match n, s with
  | S n', String c s' => String c (slice_to n' s')
  | _, _ => EmptyString
  end.

(** [c * n] for a one-character string [c]; empty when [n <= 0]. *)
Definition repeat_char (c : ascii) (n : Z) : string :=
  string_of_list_ascii (replicate (Z.to_nat n) c).

(** ["{0:w}".format(s)]: a string is left-aligned and padded with spaces
    to width [w]; a longer string is kept whole. *)
Definition ljust (w : nat) (s : string) : string :=
  s +:+ repeat_char " " (Z.of_nat w - Z.of_nat (String.length s)).

End PyStr.

(** ** Pickle, protocol 0

    [_pickle.dumps(obj)] and [_pickle.load(file)] on the objects this
    program sends: a list of 2-tuples of byte strings.

    The pickler writes, for the list, MARK LIST, then every tuple followed
    by APPEND, then STOP; for a tuple, MARK, its two strings, TUPLE; for a
    string, STRING, its [repr] and a newline. After an object it may
    write a PUT that stores the object in the memo. Which objects get a
    PUT, and under which index, differs between the two modules the
    program imports: [pickle.py] memoizes every object and counts from 0;
    [cPickle], the module the program binds under Python 2, counts from 1
    and leaves the PUT out for an object nothing else refers to and for a
    string shorter than two bytes. That choice is the [memo_policy]: for
    the n-th object saved, the index of its PUT, if it gets one.

    A GET (a reference back to a memoized object) is written when one
    object is met twice. [cPickle] saves strings shorter than two bytes
    without looking into the memo, and the longer strings of one snapshot
    are the results of separate [str] and [pformat] calls, so separate
    objects: the pickler modelled here writes no GET. ([pickle.py] would
    write one for two strings that are one object.) The unpickler
    executes GET all the same. *)

Module Pickle.
Import PyStr.

Inductive pyobj :=
| PMark
| PStr (s : string)
| PTuple (l : list pyobj)
| PList (l : list pyobj).

Definition MARK : ascii := "(".
Definition STOP : ascii := ".".
Definition STRING : ascii := "S".
Definition PUT : ascii := "p".
Definition GET : ascii := "g".
Definition TUPLE : ascii := "t".
Definition LIST : ascii := "l".
Definition APPEND : ascii := "a".

Definition memo_policy : Type := nat → option nat.

(** [pickle.py]: [memoize] after every object, index [len(self.memo)]. *)
Definition pickle_py : memo_policy := Some.

(** [PUT + repr(i) + '\n'] *)
Definition put (i : nat) : list ascii :=
  PUT :: list_ascii_of_string (pretty i) ++ [nl].

Definition put_opt (o : option nat) : list ascii :=
  match o with
  | Some i => put i
  | None => []
  end.

(** [save_string]; [n] counts the objects saved so far. *)
Definition save_string (mp : memo_policy) (s : string) (n : nat)
  : list ascii * nat :=
  (STRING :: repr s ++ [nl] ++ put_opt (mp n), S n).

(** [save_tuple] on a 2-tuple of strings. *)
Definition save_tuple (mp : memo_policy) (p : string * string) (n : nat)
  : list ascii * nat :=
  let '(o1, n1) := save_string mp p.1 n in
  let '(o2, n2) := save_string mp p.2 n1 in
  (MARK :: o1 ++ o2 ++ TUPLE :: put_opt (mp n2), S n2).

(** [_batch_appends] / [batch_list] without the binary protocol: one
    APPEND per item. *)
Fixpoint batch_appends (mp : memo_policy) (l : list (string * string))
    (n : nat) : list ascii * nat :=
  match l with
  | [] => ([], n)
  | p :: l' =>
    let '(o, n1) := save_tuple mp p n in
    let '(os, n2) := batch_appends mp l' n1 in
    (o ++ APPEND :: os, n2)
  end.

Definition save_list (mp : memo_policy) (l : list (string * string)) (n : nat)
  : list ascii * nat :=
  let '(os, n') := batch_appends mp l (S n) in
  (MARK :: LIST :: put_opt (mp n) ++ os, n').

Definition dumps_with (mp : memo_policy) (l : list (string * string))
  : list ascii :=
  (save_list mp l 0).1 ++ [STOP].

(** The bytes [pickle.py] writes for strings that are separate objects. *)
Definition dumps (l : list (string * string)) : list ascii :=
  dumps_with pickle_py l.

(** The unpickler: its stack (top of the stack first) and its memo, keyed
    by the text of the index as [pickle.py] does. The memo holds values:
    a list fetched by GET is the list as it was at its PUT, where Python
    fetches the list object itself, with the items appended since. No
    stream of the pickler above fetches a list. *)
Record unpickler := Unpickler {
  stack : list pyobj;
  memo : gmap string pyobj
}.

Definition push (x : pyobj) (u : unpickler) : unpickler :=
  Unpickler (x :: stack u) (memo u).

(** [file.readline()]: up to and including the first newline, or all that
    is left. *)
Fixpoint readline (s : list ascii) : list ascii * list ascii :=
  match s with
  | [] => ([], [])
  | c :: s' =>
    if decide (c = nl) then ([c], s')
    else let '(l, r) := readline s' in (c :: l, r)
  end.

(** [self.marker()] and the slice above it: the objects pushed since the
    topmost mark, oldest first, and the stack below the mark. *)
Fixpoint pop_to_mark (st : list pyobj) : option (list pyobj * list pyobj) :=
  match st with
  | [] => None
  | PMark :: st' => Some ([], st')
  | x :: st' =>
    match pop_to_mark st' with
    | Some (items, below) => Some (items ++ [x], below)
    | None => None
    end
  end.

(** The quote check of [load_string]. *)
Definition unquote (rep : list ascii) : outcome (list ascii) :=
  match rep with
  | q :: r =>
    if decide (q = dquote ∨ q = squote) then
      if decide (last r = Some q) then Ret (removelast r)
      else Raise ValueError
    else Raise ValueError
  | [] => Raise ValueError
  end.

Inductive step_result :=
| Continue (u : unpickler) (rest : list ascii)
| Stop (v : pyobj) (rest : list ascii).

(** One turn of the loop of [Unpickler.load]: read an opcode and run it.
    Only the opcodes of a pickled snapshot are modelled. Another opcode
    is answered like an unknown one; [pickle] knows many more (GLOBAL
    and REDUCE run code of the stream's choice), so the unpickler is
    that of Python on the streams the pickler above writes and their
    prefixes, and nothing is stated of it on others. *)
Definition dispatch (u : unpickler) (s : list ascii) : outcome step_result :=
  match s with
  | [] => Raise EOFError
  | op :: s1 =>
    if decide (op = MARK) then Ret (Continue (push PMark u) s1)
    else if decide (op = STOP) then
      match stack u with
      | v :: _ => Ret (Stop v s1)
      | [] => Raise IndexError
      end
    else if decide (op = STRING) then
      let '(line, s2) := readline s1 in
      body ← unquote (removelast line);
      str ← decode_escape body;
      Ret (Continue (push (PStr str) u) s2)
    else if decide (op = PUT) then
      let '(line, s2) := readline s1 in
      match stack u with
      | v :: _ =>
        Ret (Continue
          (Unpickler (stack u)
             (<[string_of_list_ascii (removelast line) := v]> (memo u))) s2)
      | [] => Raise IndexError
      end
    else if decide (op = GET) then
      let '(line, s2) := readline s1 in
      match memo u !! string_of_list_ascii (removelast line) with
      | Some v => Ret (Continue (push v u) s2)
      | None => Raise KeyError
      end
    else if decide (op = TUPLE) then
      match pop_to_mark (stack u) with
      | Some (items, below) =>
        Ret (Continue (Unpickler (PTuple items :: below) (memo u)) s1)
      | None => Raise IndexError
      end
    else if decide (op = LIST) then
      match pop_to_mark (stack u) with
      | Some (items, below) =>
        Ret (Continue (Unpickler (PList items :: below) (memo u)) s1)
      | None => Raise IndexError
      end
    else if decide (op = APPEND) then
      match stack u with
      | v :: PList l :: below =>
        Ret (Continue (Unpickler (PList (l ++ [v]) :: below) (memo u)) s1)
      | _ :: _ :: _ => Raise AttributeError
      | _ => Raise IndexError
      end
    else Raise KeyError
  end.

(** The loop of [Unpickler.load]. Every turn consumes an opcode, so a
    fuel above the length of the stream is never used up ([None]). *)
Fixpoint load_go (fuel : nat) (u : unpickler) (s : list ascii)
  : option (outcome (pyobj * list ascii)) :=
  match fuel with
  | O => None
  | S fuel' =>
    match dispatch u s with
    | Ret (Continue u' rest) => load_go fuel' u' rest
    | Ret (Stop v rest) => Some (Ret (v, rest))
    | Raise e => Some (Raise e)
    | Block => Some Block
    end
  end.

Definition load_from (u : unpickler) (s : list ascii)
  : outcome (pyobj * list ascii) :=
  default (Raise EOFError) (load_go (S (length s)) u s).

(** [pickle.load(file)]: a new unpickler reads one object off the stream
    and leaves the rest in it. *)
Definition load (s : list ascii) : outcome (pyobj * list ascii) :=
  load_from (Unpickler [] ∅) s.

(** The object a snapshot is, as the unpickler builds it. *)
Definition tuple_obj (p : string * string) : pyobj :=
  PTuple [PStr p.1; PStr p.2].

Definition obj_of_snapshot (l : list (string * string)) : pyobj :=
  PList (tuple_obj <$> l).

End Pickle.

(** ** The operating system: one directory, named pipes, descriptors *)

Module OS.

(** What a path of the pipe directory names. *)
Inductive node :=
| Fifo (ino : nat)
| Regular
| Directory.

Global Instance node_eq_dec : EqDecision node.
Proof. solve_decision. Defined.

(** A kernel pipe: the bytes written and not yet read, oldest first, and
    its capacity. *)
Record pipe := Pipe {
  buf : list ascii;
  cap : nat
}.

(** An open file description. *)
Inductive ofile :=
| OPipe (ino : nat) (nonblock : bool)
| OFile.

(** The system as the two processes see it: whether entries of the pipe
    directory may be made and removed, what its paths name, the kernel
    pipes by inode, the open descriptors of the producer, the next unused
    inode, and the capacity a new pipe gets; then what the code cannot
    see before it asks:
    - [page_room ino p n], the bytes of a write of [n] bytes the kernel
      finds room for in the pipe [ino] when it holds [buf p]. A kernel
      counts the room of a pipe in pages, not in bytes, so this can be
      less than the capacity less the bytes held;
    - [can_open path], whether the process may open the path (its
      permissions and the descriptors the process has left allow it);
    - [can_launch argv], whether a process with these arguments can be
      started (the program is found and may be run);
    and the argument lists of the processes launched, oldest first. *)
Record world := World {
  dir_writable : bool;
  fs : gmap string node;
  pipes : gmap nat pipe;
  fds : gmap nat ofile;
  next_ino : nat;
  new_cap : nat;
  page_room : nat → pipe → nat → nat;
  can_open : string → bool;
  can_launch : list string → bool;
  procs : list (list string)
}.

(** Writes of up to [PIPE_BUF] bytes are atomic. *)
Definition PIPE_BUF : nat := 4096.

(** The size of a page of a pipe on Linux. *)
Definition PAGE_SIZE : nat := 4096.

Definition set_fs (f : gmap string node) (w : world) : world :=
  World (dir_writable w) f (pipes w) (fds w) (next_ino w) (new_cap w)
        (page_room w) (can_open w) (can_launch w) (procs w).

Definition set_fds (f : gmap nat ofile) (w : world) : world :=
  World (dir_writable w) (fs w) (pipes w) f (next_ino w) (new_cap w)
        (page_room w) (can_open w) (can_launch w) (procs w).

Definition set_pipe (ino : nat) (p : pipe) (w : world) : world :=
  World (dir_writable w) (fs w) (<[ino := p]> (pipes w)) (fds w)
        (next_ino w) (new_cap w)
        (page_room w) (can_open w) (can_launch w) (procs w).

Definition set_procs (l : list (list string)) (w : world) : world :=
  World (dir_writable w) (fs w) (pipes w) (fds w) (next_ino w) (new_cap w)
        (page_room w) (can_open w) (can_launch w) l.

(** [os.mkfifo(path)]: fails when the directory cannot be written or the
    path names something already; otherwise the path names a new, empty
    pipe. *)
Definition mkfifo (path : string) (w : world) : outcome unit * world :=
  if negb (dir_writable w) then (Raise OSError, w)
  else match fs w !! path with
  | Some _ => (Raise OSError, w)
  | None =>
    (Ret (),
     World (dir_writable w) (<[path := Fifo (next_ino w)]> (fs w))
           (<[next_ino w := Pipe [] (new_cap w)]> (pipes w)) (fds w)
           (S (next_ino w)) (new_cap w)
           (page_room w) (can_open w) (can_launch w) (procs w))
  end.

(** [os.remove(path)]: fails on a missing path, on a directory and in a
    directory that cannot be written. A pipe that is still open lives on
    without its name. *)
Definition remove (path : string) (w : world) : outcome unit * world :=
  match fs w !! path with
  | None => (Raise OSError, w)
  | Some Directory => (Raise OSError, w)
  | Some _ =>
    if negb (dir_writable w) then (Raise OSError, w)
    else (Ret (), set_fs (delete path (fs w)) w)
  end.

(** [os.open(path, os.O_RDWR | flags)]: fails on a missing path, on a
    directory and on a path the process may not open. A pipe opened for
    reading and writing never waits for a peer. Returns the new
    descriptor. *)
Definition open_rdwr (path : string) (nonblock : bool) (w : world)
  : outcome nat * world :=
  let fd := fresh (dom (fds w)) in
  if negb (can_open w path) then (Raise OSError, w)
  else match fs w !! path with
  | None => (Raise OSError, w)
  | Some Directory => (Raise OSError, w)
  | Some (Fifo ino) => (Ret fd, set_fds (<[fd := OPipe ino nonblock]> (fds w)) w)
  | Some Regular => (Ret fd, set_fds (<[fd := OFile]> (fds w)) w)
  end.

(** [subprocess.Popen(argv, shell=False)]: raises [OSError] when the
    child cannot be started; returns the child otherwise, by its place
    among the processes launched. *)
Definition popen (argv : list string) (w : world) : outcome nat * world :=
  if can_launch w argv
  then (Ret (length (procs w)), set_procs (procs w ++ [argv]) w)
  else (Raise OSError, w).

(** The bytes of a write of [n] bytes the pipe [ino] has room for: its
    whole capacity when it is empty; when it holds bytes, what the kernel
    finds room for, which is never more than the capacity less the bytes
    held. *)
Definition room (w : world) (ino : nat) (p : pipe) (n : nat) : nat :=
  match buf p with
  | [] => cap p
  | _ => page_room w ino p n `min` (cap p - length (buf p))
  end.

(** Linux on a pipe of one page that holds bytes: the bytes of a write
    that are over after whole pages go into the page, behind the bytes
    held, when they fit there; nothing else does. *)
Definition linux_one_page : nat → pipe → nat → nat :=
  λ _ p n,
    let chars := n mod PAGE_SIZE in
    if decide (length (buf p) + chars ≤ PAGE_SIZE) then chars else 0.

(** [os.write(fd, data)] on a pipe whose read side is open (the writer
    holds it itself). All of [data] is written when the pipe has room
    for it. When it has not, a blocking descriptor suspends the caller; a
    non-blocking one raises [OSError] (EAGAIN) for an atomic write or
    when there is room for nothing, and writes the first bytes of
    [data], as many as there is room for, otherwise. Returns the number
    of bytes written. The contents of regular files are not tracked. *)
Definition write (fd : nat) (data : list ascii) (w : world)
  : outcome nat * world :=
  match fds w !! fd with
  | None => (Raise OSError, w)
  | Some OFile => (Ret (length data), w)
  | Some (OPipe ino nonblock) =>
    match pipes w !! ino with
    | None => (Raise OSError, w)
    | Some p =>
      let room := room w ino p (length data) in
      if decide (length data ≤ room) then
        (Ret (length data), set_pipe ino (Pipe (buf p ++ data) (cap p)) w)
      else if negb nonblock then (Block, w)
      else if decide (length data ≤ PIPE_BUF ∨ room = 0) then
        (Raise OSError, w)
      else
        (Ret room, set_pipe ino (Pipe (buf p ++ take room data) (cap p)) w)
    end
  end.

(** [os.close(fd)]: fails on a descriptor that is not open. *)
Definition close (fd : nat) (w : world) : outcome unit * world :=
  match fds w !! fd with
  | None => (Raise OSError, w)
  | Some _ => (Ret (), set_fds (delete fd (fds w)) w)
  end.

(** The bytes waiting in the pipe behind a descriptor. *)
Definition pending (fd : nat) (w : world) : option (list ascii) :=
  match fds w !! fd with
  | Some (OPipe ino _) => buf <$> pipes w !! ino
  | _ => None
  end.

End OS.

(** ** Programs: state passing with exceptions

    A raised exception keeps the state reached so far. *)

Definition prog (S A : Type) : Type := S → outcome A * S.

Definition ret_ {S A} (a : A) : prog S A := λ s, (Ret a, s).

Definition raise_ {S A} (e : exn) : prog S A := λ s, (Raise e, s).

Definition bind_ {S A B} (m : prog S A) (k : A → prog S B) : prog S B :=
  λ s, match m s with
       | (Ret a, s') => k a s'
       | (Raise e, s') => (Raise e, s')
       | (Block, s') => (Block, s')
       end.

(** [try: m except e: h] *)
Definition try_ {S A} (m : prog S A) (e : exn) (h : prog S A) : prog S A :=
  λ s, match m s with
       | (Raise e', s') => if decide (e' = e) then h s' else (Raise e', s')
       | r => r
       end.

Notation "x <~ m ;; k" := (bind_ m (λ x, k))
  (at level 100, m at next level, right associativity).

(** ** The producer: class [XTBug] *)

(** [str(k)] on the keys and [pprint.pformat(v)] on the values of the
    mappings submitted. *)
Class StrOf (K : Type) := str : K → string.
Class PFormat (V : Type) := pformat : V → string.

(** Python compares tuples item by item, and byte strings byte by byte. *)
Definition tuple_leb (p q : string * string) : bool :=
  match String.compare p.1 q.1 with
  | Lt => true
  | Gt => false
  | Eq => String.leb p.2 q.2
  end.

Definition tuple_le (p q : string * string) : Prop := tuple_leb p q = true.

Global Instance tuple_le_dec : RelDecision tuple_le.
Proof. intros p q. unfold tuple_le. apply _. Defined.

(** [sorted(l)] on a list of string pairs. The order is total and
    antisymmetric, so every sorting algorithm returns this list, whatever
    the order of [l]. *)
Definition sorted (l : list (string * string)) : list (string * string) :=
  merge_sort tuple_le l.

Definition name_le (p q : string * string) : Prop :=
  String.leb p.1 q.1 = true.

(** Line 62. *)
Definition _KEEP_XTERM_OPEN : bool := true.

Module XTBug.

(** [_PIPE.format(n)] *)
Definition _PIPE (n : nat) : string := "/tmp/xtbug" +:+ pretty n +:+ ".pipe".

(** Lines 89-102: the command line of the xterm that runs the consumer. *)
Definition options (fg bg : string) (w h : Z) (hold : bool) (_pipe : string)
    (_mycount : nat) : list string :=
  (["xterm";
    "+sb";
    (if hold then "-" else "+") +:+ "hold";
    "+aw";
    "-geometry"; pretty w +:+ "x" +:+ pretty h;
    "-bg"; bg;
    "-fg"; fg;
    "-T"; _pipe;
    "+ah";
    "+bc";
    "-cr"; "black";
    "-uc";
    "-e"; "python"; "./xtbug.py"; "_xterm_win"; pretty _mycount])%string.

Section xtbug.
Context `{Countable K} {V : Type} `{!StrOf K} `{!PFormat V}.

(** The producing process: the operating system, the module the name
    [_pickle] was bound to at import (by its memo policy), the class
    attribute [XTBug._count], and the mappings (dicts) the process
    holds, by reference. *)
Record pstate := PState {
  os : OS.world;
  _pickle : Pickle.memo_policy;
  _count : nat;
  heap : gmap nat (gmap K V)
}.

Definition set_os (w : OS.world) (st : pstate) : pstate :=
  PState w (_pickle st) (_count st) (heap st).

Definition set_heap (h : gmap nat (gmap K V)) (st : pstate) : pstate :=
  PState (os st) (_pickle st) (_count st) h.

Definition lift_os {A} (m : prog OS.world A) : prog pstate A :=
  λ st, let '(r, w) := m (os st) in (r, set_os w st).

(** An instance: [self._mycount], [self._pipe], [self._subp] (the child,
    by its place among the processes launched) and [self.sout]. *)
Record xtbug := Instance_ {
  _mycount : nat;
  _pipe : string;
  _subp : nat;
  sout : nat
}.

(** Lines 80-84: make the pipe; when that fails, remove the path and make
    the pipe again. *)
Definition create_pipe (path : string) : prog OS.world unit :=
  try_ (OS.mkfifo path) OSError
       (_ <~ OS.remove path ;; OS.mkfifo path).

(** [XTBug.__init__(fg, bg, w, h, hold)]: the number is taken and the
    counter stepped, the pipe made, the xterm launched, the pipe opened.
    The two [time.sleep] calls do not touch the state modelled here. *)
Definition init (fg bg : string) (w h : Z) (hold : bool) : prog pstate xtbug :=
  λ st,
    let mycount := _count st in
    let path := _PIPE mycount in
    (_ <~ lift_os (create_pipe path) ;;
     subp <~ lift_os (OS.popen (options fg bg w h hold path mycount)) ;;
     fd <~ lift_os (OS.open_rdwr path true) ;;
     ret_ (Instance_ mycount path subp fd))
    (PState (os st) (_pickle st) (S mycount) (heap st)).

(** [XTBug()]: [__init__] with the default arguments of line 70. *)
Definition __init__ : prog pstate xtbug :=
  init "white" "blue" 120 60 _KEEP_XTERM_OPEN.

(** [variables.pop(each)] on the mapping behind reference [r]. *)
Definition dict_pop (r : nat) (each : K) : prog pstate V :=
  λ st, match heap st !! r with
        | None => (Raise AttributeError, st)
        | Some d =>
          match d !! each with
          | None => (Raise KeyError, st)
          | Some v =>
            (Ret v, set_heap (<[r := delete each d]> (heap st)) st)
          end
        end.

(** Lines 125-129: the loop over [args], filling [dic]. *)
Fixpoint extract (r : nat) (args : list K) (dic : gmap K V)
  : prog pstate (gmap K V) :=
  match args with
  | [] => ret_ dic
  | each :: args' =>
    dic' <~ try_ (v <~ dict_pop r each ;; ret_ (<[each := v]> dic))
                 KeyError (ret_ dic) ;;
    extract r args' dic'
  end.

(** [list(variables.items())] on the mapping behind reference [r]. *)
Definition dict_items (r : nat) : prog pstate (list (K * V)) :=
  λ st, match heap st !! r with
        | None => (Raise AttributeError, st)
        | Some d => (Ret (map_to_list d), st)
        end.

(** The list that is pickled (lines 133-134). *)
Definition snapshot (items : list (K * V)) : list (string * string) :=
  sorted ((λ kv, (str kv.1, pformat kv.2)) <$> items).

(** Lines 131-136: pickle the sorted pairs and write them to the pipe;
    an [OSError] of the write is dropped. *)
Definition submit (self : xtbug) (items : list (K * V)) : prog pstate unit :=
  λ st,
    try_ (_ <~ lift_os (OS.write (sout self)
                          (Pickle.dumps_with (_pickle st) (snapshot items))) ;;
          ret_ ())
         OSError (ret_ ()) st.

(** [XTBug.__call__(variables, *args)]; [f_back] refers to the local
    variables of the calling frame, [variables] is [None] or a reference
    to a mapping. *)
Definition __call__ (self : xtbug) (variables : option nat) (args : list K)
    (f_back : nat) : prog pstate unit :=
  let r := default f_back variables in
  items <~ (match args with
            | [] => dict_items r
            | _ => dic <~ extract r args ∅ ;; ret_ (map_to_list dic)
            end) ;;
  submit self items.

(** The mapping whose items a call pickles: [variables] itself, or, when
    names are given, its entries for those names. *)
Definition pickled (d : gmap K V) (args : list K) : gmap K V :=
  match args with
  | [] => d
  | _ => filter (λ kv, kv.1 ∈ args) d
  end.

(** [XTBug.__nonzero__], the truth test of Python 2; [f_back] refers to
    the local variables of the frame that asks. *)
Definition __nonzero__ (self : xtbug) (f_back : nat) : prog pstate bool :=
  _ <~ __call__ self (Some f_back) [] f_back ;; ret_ true.

(** [XTBug.__bool__], the truth test of Python 3: it calls
    [__nonzero__], whose calling frame is then the frame of [__bool__]
    itself; [frame] refers to the local variables of that frame, which
    are [self] alone. *)
Definition __bool__ (self : xtbug) (frame : nat) : prog pstate bool :=
  __nonzero__ self frame.

(** [XTBug.__del__] *)
Definition __del__ (self : xtbug) : prog pstate unit :=
  lift_os (OS.close (sout self)).

End xtbug.
End XTBug.

Module XTBugRecord.
Section record.
Context `{Countable K} {V : Type} `{!StrOf K} `{!PFormat V}.

(** The bytes a call in state [st] hands to [os.write] for the mapping
    [d] and the names [args] (lines 132-134). *)
Definition record (st : XTBug.pstate (K:=K) (V:=V)) (d : gmap K V)
    (args : list K) : list ascii :=
  Pickle.dumps_with (XTBug._pickle st)
    (XTBug.snapshot (map_to_list (XTBug.pickled d args))).

End record.
End XTBugRecord.

(** ** The consumer: [_xterm_win] *)

Module Renderer.
Import PyStr.

(** What the loop does to the curses window, oldest first. *)
Inductive scr_op :=
| Clear
| AddStr (s : string)
| Refresh.

Global Instance scr_op_eq_dec : EqDecision scr_op.
Proof. solve_decision. Defined.

(** The state of [main]: the local [outprev], the window operations done
    so far, and the texts [scr.addstr(0, 0, s)] accepts (the others it
    refuses by an exception). *)
Record rstate := RState {
  outprev : string;
  ops : list scr_op;
  fits : string → bool
}.

Definition scr_do (o : scr_op) : prog rstate unit :=
  λ r, (Ret (), RState (outprev r) (ops r ++ [o]) (fits r)).

(** [scr.addstr(0, 0, s)]: a text that is not accepted is refused by
    [TypeError] when it holds a NUL byte (the argument is passed on as a
    C string), and by [curses.error] otherwise (it runs off the
    window). *)
Definition addstr (s : string) : prog rstate unit :=
  λ r, if fits r s then scr_do (AddStr s) r
       else if contains NUL s then (Raise TypeError, r)
       else (Raise CursesError, r).

Definition set_outprev (s : string) : prog rstate unit :=
  λ r, (Ret (), RState s (ops r) (fits r)).

(** Lines 159-162: the row of one pair. *)
Definition row (each : string * string) : string :=
  let name := slice_to 29 each.1 in
  let name := name +:+ " " +:+
              repeat_char "." (28 - Z.of_nat (String.length name)) +:+ " " in
  ljust 30 name +:+ each.2 +:+ String nl EmptyString.

(** Lines 156-162: [out] after the [for] loop. *)
Definition format (rows : list (string * string)) : string :=
  foldl (λ out each, out +:+ row each) EmptyString rows.

(** The pairs of an unpickled snapshot, as [for each in ...] and
    [name, val = each] take them from a list of 2-tuples of strings.
    An object of another shape is not one the producer sends; it is
    answered with [TypeError] here, where Python would go on with any
    iterable of 2-item sequences, and nothing is stated of such
    objects. *)
Definition pair_of (o : Pickle.pyobj) : outcome (string * string) :=
  match o with
  | Pickle.PTuple [Pickle.PStr name; Pickle.PStr val] => Ret (name, val)
  | _ => Raise TypeError
  end.

Fixpoint pairs_of_list (l : list Pickle.pyobj) : outcome (list (string * string)) :=
  match l with
  | [] => Ret []
  | o :: l' => p ← pair_of o; ps ← pairs_of_list l'; Ret (p :: ps)
  end.

Definition pairs_of (o : Pickle.pyobj) : outcome (list (string * string)) :=
  match o with
  | Pickle.PList l => pairs_of_list l
  | _ => Raise TypeError
  end.

(** [pickle.load(sin)] as the loop uses it: the pairs and the bytes left
    in the stream. *)
Definition decode (sin : list ascii)
  : outcome (list (string * string) * list ascii) :=
  '(o, sin') ← Pickle.load sin;
  rows ← pairs_of o;
  Ret (rows, sin').

(** [n] records read off the stream one after the other. *)
Fixpoint decode_many (n : nat) (sin : list ascii)
  : outcome (list (list (string * string)) * list ascii) :=
  match n with
  | O => Ret ([], sin)
  | S n' =>
    '(rows, sin') ← decode sin;
    '(more, sin'') ← decode_many n' sin';
    Ret (rows :: more, sin'')
  end.

Definition too_long : string := "Error: Output line too long?".

(** Lines 163-170: repaint when [out] is not empty and differs from
    [outprev]. *)
Definition repaint (out : string) : prog rstate unit :=
  λ r, if decide (out ≠ EmptyString ∧ out ≠ outprev r) then
         (_ <~ scr_do Clear ;;
          _ <~ try_ (addstr out) CursesError (addstr too_long) ;;
          _ <~ set_outprev out ;;
          scr_do Refresh) r
       else (Ret (), r).

(** One turn of the [while True] loop on a decoded snapshot. *)
Definition render (rows : list (string * string)) : prog rstate unit :=
  repaint (format rows).

(** One turn of the loop on the stream: [pickle.load(sin)], then the
    rows, then the repaint. The state is the renderer's and the bytes not
    yet read. *)
Definition turn : prog (rstate * list ascii) unit :=
  λ '(r, sin),
    match decode sin with
    | Ret (rows, sin') => let '(res, r') := render rows r in (res, (r', sin'))
    | Raise e => (Raise e, (r, sin))
    | Block => (Block, (r, sin))
    end.

(** [main] on [sin], the bytes the pipe delivers until its write side is
    closed: the loop only ends by an exception. Every turn that returns
    has read at least one byte, and no turn suspends, so a fuel above the
    length of the stream is never used up ([None]). *)
Fixpoint main_go (fuel : nat) (r : rstate) (sin : list ascii)
  : option (exn * rstate) :=
  match fuel with
  | O => None
  | S fuel' =>
    match turn (r, sin) with
    | (Ret _, (r', sin')) => main_go fuel' r' sin'
    | (Raise e, (r', _)) => Some (e, r')
    | (Block, (r', _)) => None
    end
  end.

Definition main (r : rstate) (sin : list ascii) : option (exn * rstate) :=
  main_go (S (length sin)) r sin.

(** The loop when the user interrupts the consumer (Ctrl-C in its
    window): [KeyboardInterrupt] is raised where the loop waits, in
    [pickle.load] at the start of a turn, here of turn [n] counted from
    0. A loop that ended by itself before that turn is not
    interrupted. *)
Fixpoint main_until (n : nat) (r : rstate) (sin : list ascii)
  : option (exn * rstate) :=
  match n with
  | O => Some (KeyboardInterrupt, r)
  | S n' =>
    match turn (r, sin) with
    | (Ret _, (r', sin')) => main_until n' r' sin'
    | (Raise e, (r', _)) => Some (e, r')
    | (Block, (r', _)) => None
    end
  end.

(** The window operations of a state that repaint the screen. *)
Definition repaints (r : rstate) : nat :=
  length (filter (λ o, o = Clear) (ops r)).

End Renderer.

(** ** The consumer process around the loop *)

Module XtermWin.
Import Renderer.

(** [_PIPE.format(sys.argv[2])]: the producer passes [str(self._mycount)]
    as that argument. *)
Definition pipe_of (argv2 : string) : string :=
  ("/tmp/xtbug" +:+ argv2 +:+ ".pipe")%string.

(** The consumer process outside the curses window: the operating system
    and the lines it printed; then what the run meets:
    - [term_ok], whether the terminal does what [curses.wrapper] and the
      set-up calls of [main] ask of it (colours, an invisible cursor);
    - [sigint], the turn of the loop at which the user interrupts the
      consumer, if they do. *)
Record cstate := CState {
  cos : OS.world;
  stdout : list string;
  term_ok : bool;
  sigint : option nat
}.

(** [try: m finally: f]: [f] runs whatever [m] did; an exception of [f]
    replaces the result of [m]. *)
Definition finally_ {S A} (m : prog S A) (f : prog S unit) : prog S A :=
  λ s, let '(res, s1) := m s in
       match f s1 with
       | (Ret _, s2) => (res, s2)
       | (Raise e, s2) => (Raise e, s2)
       | (Block, s2) => (Block, s2)
       end.

(** Lines 149-153, the set-up calls of [main]: [use_default_colors],
    [noecho], [cbreak], [curs_set(0)], [delay_output(0)]. They raise
    [curses.error] on a terminal that cannot do what they ask, as
    [curses.wrapper] does before them; what they set is undone when
    [curses.wrapper] ends. *)
Definition setup : prog cstate unit :=
  λ s, if term_ok s then (Ret (), s) else (Raise CursesError, s).

(** Lines 154-170: [outprev = ''] and the loop, which ends by the
    exception it raises. The window is gone afterwards. *)
Definition loop (r : rstate) (sin : list ascii) : prog cstate unit :=
  λ s, match match sigint s with
             | None => main (RState EmptyString (ops r) (fits r)) sin
             | Some n => main_until n (RState EmptyString (ops r) (fits r)) sin
             end with
       | Some (e, _) => (Raise e, s)
       | None => (Block, s)
       end.

(** [_curses.wrapper(main)] *)
Definition wrapper (r : rstate) (sin : list ascii) : prog cstate unit :=
  _ <~ setup ;; loop r sin.

Definition os_remove (path : string) : prog cstate unit :=
  λ s, let '(res, w) := OS.remove path (cos s) in
       (res, CState w (stdout s) (term_ok s) (sigint s)).

Definition print (line : string) : prog cstate unit :=
  λ s, (Ret (), CState (cos s) (stdout s ++ [line]) (term_ok s) (sigint s)).

(** [_xterm_win] from the line after [sin = open(pipe, 'r')]: [sin] is the
    bytes the pipe delivers until its write side is closed, [r] the
    window [curses.wrapper] hands to [main]. [sin.close()] changes
    nothing modelled here. *)
Definition _xterm_win (argv2 : string) (r : rstate) (sin : list ascii)
  : prog cstate unit :=
  _ <~ finally_ (try_ (try_ (wrapper r sin) EOFError (ret_ ()))
                      KeyboardInterrupt (ret_ ()))
                (os_remove (pipe_of argv2)) ;;
  if _KEEP_XTERM_OPEN then print "Exited! Please close this window..."
  else ret_ ().

End XtermWin.

(** ** Python values for concrete runs: integers and byte strings *)

Inductive pyval :=
| VInt (z : Z)
| VStr (s : string).

Global Instance pyval_eq_dec : EqDecision pyval.
Proof. solve_decision. Defined.

Global Instance pyval_countable : Countable pyval.
Proof.
  refine (inj_countable'
    (λ v, match v with VInt z => inl z | VStr s => inr s end)
    (λ x, match x with inl z => VInt z | inr s => VStr s end) _).
  by intros [].
Defined.

(** [str(1) == '1'], [str('a') == 'a'] *)
Global Instance pyval_str : StrOf pyval := λ v,
  match v with
  | VInt z => pretty z
  | VStr s => s
  end.

(** [pformat(1) == '1'], [pformat('a') == repr('a')] *)
Global Instance pyval_pformat : PFormat pyval := λ v,
  match v with
  | VInt z => pretty z
  | VStr s => string_of_list_ascii (PyStr.repr s)
  end.

(** Mappings keyed by names, as [locals()] is. *)
Global Instance string_str : StrOf string := λ s, s.

(** ** Concrete runs *)

Module Run.
Local Open Scope string_scope.

(** A writable directory with nothing in it, no descriptor open. *)
(** New pipes have one page; every path may be opened and every program
    launched. *)
Definition world0 : OS.world :=
  OS.World true ∅ ∅ ∅ 0 4096 OS.linux_one_page (λ _, true) (λ _, true) [].

(** [{'a': 1, 'b': 'x'}] *)
Definition d0 : gmap string pyval := {[ "a" := VInt 1; "b" := VStr "x" ]}.

(** A process that has made no instance yet and holds the mapping [d0]
    at reference 0. *)
Definition st0 : XTBug.pstate (K:=string) (V:=pyval) :=
  XTBug.PState world0 Pickle.pickle_py 0 {[ 0 := d0 ]}.

(** The first instance, and the process once it is made. *)
Definition self0 : XTBug.xtbug := XTBug.Instance_ 0 "/tmp/xtbug0.pipe" 0 0.
Definition st1 : XTBug.pstate (K:=string) (V:=pyval) := (XTBug.__init__ st0).2.

(** The pipe of [self0] holding [n] bytes of its 4096. *)
Definition st_filled (n : nat) : XTBug.pstate (K:=string) (V:=pyval) :=
  XTBug.set_os
    (OS.set_pipe 0 (OS.Pipe (replicate n "."%char) 4096) (XTBug.os st1)) st1.

(** A process that finds the pipe of an earlier session, with bytes that
    were never read. *)
Definition st_stale : XTBug.pstate (K:=string) (V:=pyval) :=
  XTBug.PState
    (OS.World true {[ "/tmp/xtbug0.pipe" := OS.Fifo 0 ]}
              {[ 0 := OS.Pipe (list_ascii_of_string "old") 4096 ]} ∅ 1 4096
              OS.linux_one_page (λ _, true) (λ _, true) [])
    Pickle.pickle_py 0 ∅.

(** The process of [st0] on a system where no xterm can be launched. *)
Definition st_no_xterm : XTBug.pstate (K:=string) (V:=pyval) :=
  XTBug.PState
    (OS.World true ∅ ∅ ∅ 0 4096 OS.linux_one_page (λ _, true) (λ _, false) [])
    Pickle.pickle_py 0 {[ 0 := d0 ]}.

(** [{1: 'x', '1': 'y'}], held at reference 0 by a process that has made
    its first instance. *)
Definition int_and_str_keys : gmap pyval pyval :=
  {[ VInt 1 := VStr "x"; VStr "1" := VStr "y" ]}.

Definition st_keys : XTBug.pstate (K:=pyval) (V:=pyval) :=
  (XTBug.__init__
     (XTBug.PState world0 Pickle.pickle_py 0 {[ 0 := int_and_str_keys ]})).2.

(** A memo policy of the kind [cPickle] follows: the list and the tuple
    get a PUT, counted from 1, the strings get none. *)
Definition list_and_tuple : Pickle.memo_policy :=
  λ n, match n with 0 => Some 1 | 3 => Some 2 | _ => None end.

(** A window large enough for every text (it accepts the texts without
    a NUL byte), nothing rendered yet. *)
Definition r0 : Renderer.rstate :=
  Renderer.RState EmptyString [] (λ s, negb (PyStr.contains PyStr.NUL s)).

End Run.

(** ** More concrete runs *)

Module RunMore.
Local Open Scope string_scope.

(** A window with room for texts of up to 40 bytes (it accepts those
    without a NUL byte), nothing rendered yet. *)
Definition r_small : Renderer.rstate :=
  Renderer.RState EmptyString []
    (λ s, negb (PyStr.contains PyStr.NUL s) && Nat.leb (String.length s) 40).

(** A consumer process that has printed nothing, in the system the first
    instance of [Run.st0] was made in, and one in a system without the
    pipe. *)
Definition c0 : XtermWin.cstate :=
  XtermWin.CState (XTBug.os Run.st1) [] true None.
Definition c_gone : XtermWin.cstate :=
  XtermWin.CState Run.world0 [] true None.

(** A mapping with a value of 5000 bytes, held by the process of
    [Run.st1] when the pipe of one page holds 100 bytes. *)
Definition d_big : gmap string pyval :=
  {[ "a" := VStr (string_of_list_ascii (replicate 5000 "x"%char)) ]}.

Definition st_big : XTBug.pstate (K:=string) (V:=pyval) :=
  XTBug.set_heap {[ 0 := d_big ]} (Run.st_filled 100).

(** [{'b': 'y'}] at reference 1, beside the mapping of [Run.st1]. *)
Definition st_two : XTBug.pstate (K:=string) (V:=pyval) :=
  XTBug.set_heap {[ 0 := Run.d0; 1 := {[ "b" := VStr "y" ]} ]} Run.st1.

(** The consumer of [c0] when the user interrupts it after the first
    record. *)
Definition c_int : XtermWin.cstate :=
  XtermWin.CState (XTBug.os Run.st1) [] true (Some 1).

(** The second instance, and the process once it is made. *)
Definition self1 : XTBug.xtbug := XTBug.Instance_ 1 "/tmp/xtbug1.pipe" 1 1.
Definition st2 : XTBug.pstate (K:=string) (V:=pyval) :=
  (XTBug.__init__ Run.st1).2.

(** Two records on the stream, from picklers of both kinds: a snapshot
    with one pair, then one without pairs. *)
Definition recs : list (Pickle.memo_policy * list (string * string)) :=
  [(Pickle.pickle_py, [("a", "1")]); (Run.list_and_tuple, [])].

(** A record with a value too long for [r_small]. *)
Definition long_row : list ascii :=
  Pickle.dumps [("a", "0123456789012345678901234567890123456789")].

End RunMore.

(** * Properties *)

(** ** Byte strings: [repr] and the string-escape codec *)

Module PyStrFacts.
Import PyStr.

Lemma decode_repr_char (q c : ascii) (l : list ascii) :
  q = squote ∨ q = dquote →
  decode_escape (repr_char q c ++ l) = emit c (decode_escape l).
Proof.
  intros [-> | ->];
    destruct c as [[] [] [] [] [] [] [] []]; reflexivity.
Qed.

Lemma repr_quote_cases (s : string) :
  repr_quote s = squote ∨ repr_quote s = dquote.
Proof. unfold repr_quote. destruct (_ && _); auto. Qed.

Lemma decode_repr_body (q : ascii) (s : string) :
  q = squote ∨ q = dquote →
  decode_escape (repr_body q s) = Ret s.
Proof.
  intros Hq. induction s as [|c s IH]; [reflexivity|].
  cbn [repr_body]. rewrite decode_repr_char by done. by rewrite IH.
Qed.

Lemma repr_char_no_nl (q c : ascii) :
  q = squote ∨ q = dquote → Forall (λ d, d ≠ nl) (repr_char q c).
Proof.
  intros [-> | ->];
    destruct c as [[] [] [] [] [] [] [] []]; vm_compute;
    repeat constructor; discriminate.
Qed.

Lemma repr_body_no_nl (q : ascii) (s : string) :
  q = squote ∨ q = dquote → Forall (λ d, d ≠ nl) (repr_body q s).
Proof.
  intros Hq. induction s as [|c s IH]; [constructor|].
  cbn [repr_body]. apply Forall_app; auto using repr_char_no_nl.
Qed.

Lemma repr_no_nl (s : string) : Forall (λ d, d ≠ nl) (repr s).
Proof.
  unfold repr. pose proof (repr_quote_cases s) as Hq.
  constructor; [by destruct Hq as [-> | ->]|].
  apply Forall_app. split; [by apply repr_body_no_nl|].
  constructor; [by destruct Hq as [-> | ->]|constructor].
Qed.

Lemma pretty_N_char_no_nl (x : N) : pretty_N_char x ≠ nl.
Proof. unfold pretty_N_char. by repeat case_match. Qed.

Lemma pretty_N_go_no_nl (x : N) (s : string) :
  Forall (λ d, d ≠ nl) (list_ascii_of_string s) →
  Forall (λ d, d ≠ nl) (list_ascii_of_string (pretty_N_go x s)).
Proof.
  revert s. induction (N.lt_wf_0 x) as [x _ IH]; intros s Hs.
  destruct (decide (x = 0)%N) as [-> | Hx]; [by rewrite pretty_N_go_0|].
  rewrite pretty_N_go_step by lia. apply IH.
  - apply N.div_lt; lia.
  - cbn. constructor; auto using pretty_N_char_no_nl.
Qed.

Lemma pretty_nat_no_nl (i : nat) :
  Forall (λ d, d ≠ nl) (list_ascii_of_string (pretty i)).
Proof.
  unfold pretty, pretty_nat, pretty, pretty_N. case_decide.
  - repeat constructor. discriminate.
  - apply pretty_N_go_no_nl. constructor.
Qed.

Lemma fmap_no_block {A B} (f : A → B) (m : outcome A) :
  m ≠ Block → f <$> m ≠ Block.
Proof. by destruct m. Qed.

Lemma decode_escape_no_block (l : list ascii) : decode_escape l ≠ Block.
Proof.
  remember (length l) as n eqn:Hn. revert l Hn.
  induction (lt_wf n) as [n _ IH]. intros l ->.
  assert (∀ l', length l' < length l → decode_escape l' ≠ Block) as IH'
    by (intros l' Hl'; by eapply IH).
  clear IH. destruct l as [|c l]; [done|]. cbn [decode_escape].
  unfold emit.
  repeat (case_decide || case_match); subst; try done;
    repeat (apply fmap_no_block); apply IH'; cbn; lia.
Qed.

End PyStrFacts.

(** ** Pickle: the unpickler reads back what the pickler wrote *)

Module PickleFacts.
Import PyStr Pickle PyStrFacts.

Lemma readline_length (s l r : list ascii) :
  readline s = (l, r) → length s = length l + length r.
Proof.
  revert l r. induction s as [|c s IH]; intros l r; cbn.
  - by intros [= <- <-].
  - case_decide.
    + intros [= <- <-]. cbn. lia.
    + destruct (readline s) as [l' r'] eqn:E. intros [= <- <-].
      cbn. rewrite (IH l' r' eq_refl). lia.
Qed.

Lemma readline_app (l rest : list ascii) :
  Forall (λ d, d ≠ nl) l →
  readline (l ++ nl :: rest) = (l ++ [nl], rest).
Proof.
  induction 1 as [|c l Hc _ IH]; cbn.
  - by rewrite decide_True.
  - rewrite decide_False by done. by rewrite IH.
Qed.

Lemma dispatch_shrinks (u u' : unpickler) (s rest : list ascii) :
  dispatch u s = Ret (Continue u' rest) → length rest < length s.
Proof.
  destruct s as [|op s]; [done|]. unfold dispatch.
  repeat case_decide.
  - intros [= _ <-]. cbn. lia.
  - destruct (stack u); done.
  - destruct (readline s) as [l r] eqn:E. apply readline_length in E.
    destruct (unquote _) as [body| |]; [|done..]. cbn.
    destruct (decode_escape body); [|done..]. cbn.
    intros [= _ <-]. cbn. lia.
  - destruct (readline s) as [l r] eqn:E. apply readline_length in E.
    destruct (stack u); [done|]. intros [= _ <-]. cbn. lia.
  - destruct (readline s) as [l r] eqn:E. apply readline_length in E.
    destruct (memo u !! _); [|done]. intros [= _ <-]. cbn. lia.
  - destruct (pop_to_mark _) as [[??]|]; [|done].
    intros [= _ <-]. cbn. lia.
  - destruct (pop_to_mark _) as [[??]|]; [|done].
    intros [= _ <-]. cbn. lia.
  - destruct (stack u) as [|? [|[] ?]]; try done.
    intros [= _ <-]. cbn. lia.
  - done.
Qed.

Lemma dispatch_stop_shrinks (u : unpickler) (v : pyobj) (s rest : list ascii) :
  dispatch u s = Ret (Stop v rest) → length rest < length s.
Proof.
  destruct s as [|op s]; [done|]. unfold dispatch.
  repeat case_decide.
  - done.
  - destruct (stack u); [done|]. intros [= _ <-]. cbn. lia.
  - destruct (readline s) as [l r].
    destruct (unquote _) as [body| |]; [|done..]. cbn.
    destruct (decode_escape body); done.
  - destruct (readline s) as [l r]. destruct (stack u); done.
  - destruct (readline s) as [l r]. destruct (memo u !! _); done.
  - destruct (pop_to_mark _) as [[??]|]; done.
  - destruct (pop_to_mark _) as [[??]|]; done.
  - destruct (stack u) as [|? [|[] ?]]; done.
  - done.
Qed.

Lemma load_go_fuel (f1 f2 : nat) (u : unpickler) (s : list ascii) :
  length s < f1 → length s < f2 → load_go f1 u s = load_go f2 u s.
Proof.
  revert f2 u s. induction f1 as [|f1 IH]; intros [|f2] u s ??; try lia.
  cbn. destruct (dispatch u s) as [[u' rest|v rest]| |] eqn:E; try done.
  apply dispatch_shrinks in E. apply IH; lia.
Qed.

(** The fuel given by [load_from] is never used up. *)
Lemma load_go_enough (f : nat) (u : unpickler) (s : list ascii) :
  length s < f → is_Some (load_go f u s).
Proof.
  revert u s. induction f as [|f IH]; intros u s ?; [lia|].
  cbn. destruct (dispatch u s) as [[u' rest|v rest]| |] eqn:E; try done.
  apply dispatch_shrinks in E. apply IH; lia.
Qed.

Lemma load_from_unfold (u : unpickler) (s : list ascii) :
  load_from u s =
  match dispatch u s with
  | Ret (Continue u' rest) => load_from u' rest
  | Ret (Stop v rest) => Ret (v, rest)
  | Raise e => Raise e
  | Block => Block
  end.
Proof.
  unfold load_from. cbn [load_go].
  destruct (dispatch u s) as [[u' rest|v rest]| |] eqn:E; try done.
  apply dispatch_shrinks in E.
  by rewrite (load_go_fuel (length s) (S (length rest))) by lia.
Qed.

(** *** The opcodes, one by one *)

Lemma load_mark (u : unpickler) (s : list ascii) :
  load_from u (MARK :: s) = load_from (push PMark u) s.
Proof. by rewrite load_from_unfold. Qed.

Lemma unquote_repr (s : string) :
  unquote (repr s) = Ret (repr_body (repr_quote s) s).
Proof.
  unfold repr, unquote.
  rewrite decide_True by (destruct (repr_quote_cases s); auto).
  by rewrite last_snoc, decide_True, removelast_last.
Qed.

Lemma load_string (u : unpickler) (s : string) (rest : list ascii) :
  load_from u (STRING :: repr s ++ nl :: rest) = load_from (push (PStr s) u) rest.
Proof.
  rewrite load_from_unfold.
  change (dispatch u (STRING :: ?t)) with
    (let '(line, s2) := readline t in
     body ← unquote (removelast line);
     str ← decode_escape body;
     Ret (Continue (push (PStr str) u) s2)).
  rewrite readline_app by apply repr_no_nl.
  rewrite removelast_last, unquote_repr. cbn.
  by rewrite decode_repr_body by apply repr_quote_cases.
Qed.

Lemma load_put (u : unpickler) (i : nat) (v : pyobj) (st rest : list _) :
  stack u = v :: st →
  load_from u (put i ++ rest) =
  load_from (Unpickler (stack u) (<[pretty i := v]> (memo u))) rest.
Proof.
  intros Hst. rewrite load_from_unfold. unfold put.
  rewrite <- app_comm_cons, <- app_assoc.
  change (dispatch u (PUT :: ?t)) with
    (let '(line, s2) := readline t in
     match stack u with
     | v :: _ =>
       Ret (Continue
         (Unpickler (stack u)
            (<[string_of_list_ascii (removelast line) := v]> (memo u))) s2)
     | [] => Raise IndexError
     end).
  cbn [app]. rewrite readline_app by apply pretty_nat_no_nl.
  by rewrite Hst, removelast_last, string_of_list_ascii_of_string.
Qed.

Lemma load_tuple (u : unpickler) (items below : list pyobj) (s : list ascii) :
  pop_to_mark (stack u) = Some (items, below) →
  load_from u (TUPLE :: s) =
  load_from (Unpickler (PTuple items :: below) (memo u)) s.
Proof.
  intros Hm. rewrite load_from_unfold.
  change (dispatch u (TUPLE :: s)) with
    (match pop_to_mark (stack u) with
     | Some (items, below) =>
       Ret (Continue (Unpickler (PTuple items :: below) (memo u)) s)
     | None => Raise IndexError
     end).
  by rewrite Hm.
Qed.

Lemma load_list (u : unpickler) (items below : list pyobj) (s : list ascii) :
  pop_to_mark (stack u) = Some (items, below) →
  load_from u (LIST :: s) =
  load_from (Unpickler (PList items :: below) (memo u)) s.
Proof.
  intros Hm. rewrite load_from_unfold.
  change (dispatch u (LIST :: s)) with
    (match pop_to_mark (stack u) with
     | Some (items, below) =>
       Ret (Continue (Unpickler (PList items :: below) (memo u)) s)
     | None => Raise IndexError
     end).
  by rewrite Hm.
Qed.

Lemma load_append (u : unpickler) (v : pyobj) (l below : list pyobj)
    (s : list ascii) :
  stack u = v :: PList l :: below →
  load_from u (APPEND :: s) =
  load_from (Unpickler (PList (l ++ [v]) :: below) (memo u)) s.
Proof.
  intros Hst. rewrite load_from_unfold.
  change (dispatch u (APPEND :: s)) with
    (match stack u with
     | v :: PList l :: below =>
       Ret (Continue (Unpickler (PList (l ++ [v]) :: below) (memo u)) s)
     | _ :: _ :: _ => Raise AttributeError
     | _ => Raise IndexError
     end).
  by rewrite Hst.
Qed.

Lemma load_stop (u : unpickler) (v : pyobj) (st : list pyobj) (s : list ascii) :
  stack u = v :: st → load_from u (STOP :: s) = Ret (v, s).
Proof.
  intros Hst. rewrite load_from_unfold.
  change (dispatch u (STOP :: s)) with
    (match stack u with
     | v :: _ => Ret (Stop v s)
     | [] => Raise IndexError
     end).
  by rewrite Hst.
Qed.

(** *** The pickler's output, piece by piece *)

Lemma load_put_opt (u : unpickler) (o : option nat) (v : pyobj)
    (st : list pyobj) (rest : list ascii) :
  stack u = v :: st →
  ∃ m', load_from u (put_opt o ++ rest) = load_from (Unpickler (stack u) m') rest.
Proof.
  intros Hst. destruct o as [i|]; cbn [put_opt].
  - eexists. by erewrite load_put.
  - exists (memo u). by destruct u.
Qed.

Lemma load_save_string (mp : memo_policy) (st : list pyobj)
    (m : gmap string pyobj) (s : string) (n : nat) (rest : list ascii) :
  ∃ m', load_from (Unpickler st m) ((save_string mp s n).1 ++ rest) =
        load_from (Unpickler (PStr s :: st) m') rest.
Proof.
  unfold save_string. cbn [fst].
  rewrite <- app_comm_cons, <- !app_assoc. cbn [app].
  rewrite load_string.
  by apply (load_put_opt (push (PStr s) (Unpickler st m)) _ (PStr s) st).
Qed.

Lemma load_save_tuple (mp : memo_policy) (st : list pyobj)
    (m : gmap string pyobj) (p : string * string) (n : nat)
    (rest : list ascii) :
  ∃ m', load_from (Unpickler st m) ((save_tuple mp p n).1 ++ rest) =
        load_from (Unpickler (tuple_obj p :: st) m') rest.
Proof.
  unfold save_tuple.
  destruct (save_string mp p.1 n) as [o1 n1] eqn:E1.
  destruct (save_string mp p.2 n1) as [o2 n2] eqn:E2. cbn [fst].
  rewrite <- app_comm_cons, <- !app_assoc, load_mark. unfold push. cbn [stack memo].
  destruct (load_save_string mp (PMark :: st) m p.1 n
              (o2 ++ (TUPLE :: put_opt (mp n2)) ++ rest)) as [m1 H1].
  rewrite E1 in H1. cbn [fst] in H1. rewrite H1.
  destruct (load_save_string mp (PStr p.1 :: PMark :: st) m1 p.2 n1
              ((TUPLE :: put_opt (mp n2)) ++ rest)) as [m2 H2].
  rewrite E2 in H2. cbn [fst] in H2. rewrite H2.
  rewrite <- app_comm_cons.
  erewrite load_tuple by reflexivity.
  by apply (load_put_opt (Unpickler (tuple_obj p :: st) m2) _ (tuple_obj p) st).
Qed.

Lemma load_batch_appends (mp : memo_policy) (l : list (string * string)) :
  ∀ (acc below : list pyobj) (m : gmap string pyobj) (n : nat)
    (rest : list ascii),
  ∃ m', load_from (Unpickler (PList acc :: below) m)
                  ((batch_appends mp l n).1 ++ rest) =
        load_from (Unpickler (PList (acc ++ (tuple_obj <$> l)) :: below) m')
                  rest.
Proof.
  induction l as [|p l IH]; intros acc below m n rest.
  - exists m. cbn. by rewrite app_nil_r.
  - cbn [batch_appends].
    destruct (save_tuple mp p n) as [o n1] eqn:E1.
    destruct (batch_appends mp l n1) as [os n2] eqn:E2. cbn [fst].
    rewrite <- app_assoc, <- app_comm_cons.
    destruct (load_save_tuple mp (PList acc :: below) m p n
                (APPEND :: os ++ rest)) as [m1 H1].
    rewrite E1 in H1. cbn [fst] in H1. rewrite H1.
    erewrite load_append by reflexivity. cbn [memo].
    destruct (IH (acc ++ [tuple_obj p]) below m1 n1 rest) as [m2 H2].
    rewrite E2 in H2. cbn [fst] in H2. rewrite H2.
    exists m2. by rewrite fmap_cons, <- app_assoc.
Qed.

(** Self-delimiting round trip: [load] on a stream that starts with a
    pickled snapshot returns that snapshot and leaves the rest of the
    stream, whatever the pickler memoized. *)
Lemma load_dumps_with (mp : memo_policy) (l : list (string * string))
    (rest : list ascii) :
  load (dumps_with mp l ++ rest) = Ret (obj_of_snapshot l, rest).
Proof.
  unfold load, dumps_with, save_list.
  destruct (batch_appends mp l 1) as [os n'] eqn:E. cbn [fst].
  rewrite <- !app_comm_cons, <- !app_assoc, load_mark. unfold push.
  cbn [stack memo]. erewrite load_list by reflexivity. cbn [stack memo].
  destruct (load_put_opt (Unpickler [PList []] ∅) (mp 0) (PList []) []
              (os ++ [STOP] ++ rest) eq_refl) as [m0 H0].
  rewrite H0. cbn [stack].
  destruct (load_batch_appends mp l [] [] m0 1 ([STOP] ++ rest)) as [m' H'].
  rewrite E in H'. cbn [fst] in H'. rewrite H'.
  cbn [app]. by erewrite load_stop.
Qed.

Lemma load_dumps (l : list (string * string)) (rest : list ascii) :
  load (dumps l ++ rest) = Ret (obj_of_snapshot l, rest).
Proof. apply load_dumps_with. Qed.

Lemma load_rest_shorter (s rest : list ascii) (v : pyobj) :
  load s = Ret (v, rest) → length rest < length s.
Proof.
  unfold load, load_from. generalize (S (length s)) (Unpickler [] ∅).
  intros f. revert s. induction f as [|f IH]; intros s u; [done|].
  cbn. destruct (dispatch u s) as [[u' r|v' r]| |] eqn:E; try done.
  - intros H. apply IH in H. apply dispatch_shrinks in E. lia.
  - intros [= _ <-]. by apply dispatch_stop_shrinks in E.
Qed.

End PickleFacts.

(** ** The wire format *)

Module WireFacts.
Import Pickle PickleFacts Renderer.

Lemma pairs_of_list_objs (l : list (string * string)) :
  pairs_of_list (tuple_obj <$> l) = Ret l.
Proof.
  induction l as [|[name val] l IH]; [done|].
  cbn. by rewrite IH.
Qed.

Lemma decode_dumps_with (mp : memo_policy) (l : list (string * string))
    (rest : list ascii) :
  decode (dumps_with mp l ++ rest) = Ret (l, rest).
Proof.
  unfold decode. rewrite load_dumps_with. cbn. by rewrite pairs_of_list_objs.
Qed.

Lemma decode_dumps (l : list (string * string)) (rest : list ascii) :
  decode (dumps l ++ rest) = Ret (l, rest).
Proof. apply decode_dumps_with. Qed.

Lemma decode_rest_shorter (s rest : list ascii) (rows : list (string * string)) :
  decode s = Ret (rows, rest) → length rest < length s.
Proof.
  unfold decode. destruct (load s) as [[o s']| |] eqn:E; try done.
  apply load_rest_shorter in E. cbn.
  destruct (pairs_of o); cbn; [|done..]. by intros [= _ <-].
Qed.

Lemma turn_dumps (mp : memo_policy) (rows : list (string * string))
    (r : rstate) (rest : list ascii) :
  turn (r, dumps_with mp rows ++ rest) =
  ((render rows r).1, ((render rows r).2, rest)).
Proof.
  unfold turn. rewrite decode_dumps_with. by destruct (render rows r).
Qed.

(** C3. Decoding the pickle of any list of string pairs gives back that
    list exactly and consumes exactly the record, whatever the pickler
    memoized; several records written one after the other are read back
    one by one, in order, whatever follows them in the stream; a turn of
    the consumer's loop renders the first record of the stream and leaves
    the stream at the next one. *)
Theorem C3_round_trip_and_framing :
  (∀ (mp : memo_policy) (snap : list (string * string)),
     decode (dumps_with mp snap) = Ret (snap, [])) ∧
  (∀ (recs : list (memo_policy * list (string * string))) (rest : list ascii),
     decode_many (length recs)
       (concat ((λ rec, dumps_with rec.1 rec.2) <$> recs) ++ rest)
     = Ret (recs.*2, rest)) ∧
  (∀ (mp : memo_policy) (snap : list (string * string)) (r : rstate)
     (rest : list ascii),
     turn (r, dumps_with mp snap ++ rest)
     = ((render snap r).1, ((render snap r).2, rest))).
Proof.
  split_and!.
  - intros mp snap.
    by rewrite <- (app_nil_r (dumps_with mp snap)), decode_dumps_with.
  - intros recs rest. induction recs as [|[mp snap] recs IH]; [done|].
    cbn [length fmap list_fmap concat decode_many fst snd].
    rewrite <- app_assoc, decode_dumps_with. cbn. by rewrite IH.
  - apply turn_dumps.
Qed.

End WireFacts.

(** ** The order of [sorted] *)

Module OrderFacts.

Lemma ascii_compare_refl (c : ascii) : Ascii.compare c c = Eq.
Proof. apply N.compare_refl. Qed.

Lemma string_compare_refl (a : string) : String.compare a a = Eq.
Proof.
  induction a as [|c a IH]; [done|]. cbn. by rewrite ascii_compare_refl.
Qed.

Lemma string_compare_eq (a b : string) : String.compare a b = Eq ↔ a = b.
Proof.
  split; [apply String.compare_eq_iff|]. intros ->. apply string_compare_refl.
Qed.

Lemma string_compare_lt_trans (a b c : string) :
  String.compare a b = Lt → String.compare b c = Lt → String.compare a c = Lt.
Proof.
  revert b c. induction a as [|x a IH]; intros [|y b] [|z c]; cbn; try done.
  destruct (Ascii.compare x y) eqn:Hxy; [|clear IH|done];
    destruct (Ascii.compare y z) eqn:Hyz; try done.
  - apply Ascii.compare_eq_iff in Hxy as ->.
    apply Ascii.compare_eq_iff in Hyz as ->.
    rewrite ascii_compare_refl. apply IH.
  - apply Ascii.compare_eq_iff in Hxy as ->. by rewrite Hyz.
  - apply Ascii.compare_eq_iff in Hyz as <-. by rewrite Hxy.
  - unfold Ascii.compare in *. rewrite N.compare_lt_iff in *.
    intros _ _. assert (N_of_ascii x < N_of_ascii z)%N as Hlt by lia.
    apply N.compare_lt_iff in Hlt. by rewrite Hlt.
Qed.

Lemma string_compare_gt_lt (a b : string) :
  String.compare a b = Gt ↔ String.compare b a = Lt.
Proof.
  rewrite (String.compare_antisym b a).
  destruct (String.compare a b); cbn; split; congruence.
Qed.

Lemma string_leb_cases (a b : string) :
  String.leb a b = true ↔ String.compare a b = Lt ∨ a = b.
Proof.
  unfold String.leb. rewrite <- string_compare_eq.
  destruct (String.compare a b);
    (split; [intros ?|intros [?|?]]); try done; auto.
Qed.

Lemma string_leb_trans (a b c : string) :
  String.leb a b = true → String.leb b c = true → String.leb a c = true.
Proof.
  rewrite !string_leb_cases.
  intros [Hab | ->] [Hbc | ->]; eauto using string_compare_lt_trans.
Qed.

Lemma tuple_le_cases (p q : string * string) :
  tuple_le p q ↔
  String.compare p.1 q.1 = Lt ∨ (p.1 = q.1 ∧ String.leb p.2 q.2 = true).
Proof.
  unfold tuple_le, tuple_leb. rewrite <- string_compare_eq.
  destruct (String.compare p.1 q.1);
    (split; [intros ?|intros [?|[? ?]]]); try done; auto.
Qed.

Global Instance tuple_le_total : Total tuple_le.
Proof.
  intros p q. rewrite !tuple_le_cases.
  destruct (String.compare p.1 q.1) eqn:E.
  - apply string_compare_eq in E.
    destruct (String.leb_total p.2 q.2); auto.
  - auto.
  - apply string_compare_gt_lt in E. auto.
Qed.

Global Instance tuple_le_trans : Transitive tuple_le.
Proof.
  intros p q r. rewrite !tuple_le_cases.
  intros [H1 | [H1 H1']] [H2 | [H2 H2']].
  - eauto using string_compare_lt_trans.
  - left. by rewrite <- H2.
  - left. by rewrite H1.
  - right. split; [congruence|]. eauto using string_leb_trans.
Qed.

Global Instance tuple_le_antisymm : AntiSymm (=) tuple_le.
Proof.
  intros [a1 a2] [b1 b2]. rewrite !tuple_le_cases. cbn.
  intros [H1 | [-> H1]] [H2 | [H2 H2']].
  - apply string_compare_gt_lt in H2. congruence.
  - subst. by rewrite string_compare_refl in H1.
  - by rewrite string_compare_refl in H2.
  - f_equal. by apply String.leb_antisym.
Qed.

Lemma tuple_le_name_le (p q : string * string) : tuple_le p q → name_le p q.
Proof.
  rewrite tuple_le_cases. intros Hle. apply string_leb_cases.
  destruct Hle as [?|[? _]]; [by left|by right].
Qed.

Lemma StronglySorted_mono {A} (R S : relation A) (l : list A) :
  (∀ x y, R x y → S x y) → StronglySorted R l → StronglySorted S l.
Proof.
  intros HRS. induction 1 as [|x l _ IH Hx]; constructor; [done|].
  eapply Forall_impl; eauto.
Qed.

Lemma sorted_perm (l : list (string * string)) : sorted l ≡ₚ l.
Proof. apply merge_sort_Permutation. Qed.

Lemma sorted_tuple_le (l : list (string * string)) :
  StronglySorted tuple_le (sorted l).
Proof. apply StronglySorted_merge_sort; apply _. Qed.

Lemma sorted_name_le (l : list (string * string)) :
  StronglySorted name_le (sorted l).
Proof.
  eapply StronglySorted_mono; [apply tuple_le_name_le|apply sorted_tuple_le].
Qed.

(** [sorted] does not depend on the order its argument lists the pairs
    in, so the order in which a dict yields its items does not matter. *)
Lemma sorted_unique (l1 l2 : list (string * string)) :
  l1 ≡ₚ l2 → sorted l1 = sorted l2.
Proof.
  intros Hp. apply (StronglySorted_unique tuple_le);
    [apply sorted_tuple_le..|].
  by rewrite !sorted_perm.
Qed.

End OrderFacts.

(** ** The pipe and its descriptor *)

Module OSFacts.
Import OS XTBug.

Lemma create_pipe_ok (path : string) (w : world) :
  dir_writable w = true → fs w !! path ≠ Some Directory →
  create_pipe path w =
    (Ret (),
     World true (<[path := Fifo (next_ino w)]> (fs w))
           (<[next_ino w := Pipe [] (new_cap w)]> (pipes w)) (fds w)
           (S (next_ino w)) (new_cap w)
           (page_room w) (can_open w) (can_launch w) (procs w)).
Proof.
  intros Hw Hdir. unfold create_pipe, try_, mkfifo at 1. rewrite Hw. cbn.
  destruct (fs w !! path) as [n|] eqn:Hp; [|done].
  rewrite decide_True by done.
  unfold bind_, remove. rewrite Hp, Hw.
  destruct n as [ino| |]; [| |done]; cbn;
    unfold mkfifo; cbn; by rewrite Hw, lookup_delete_eq, insert_delete_eq.
Qed.

Lemma create_pipe_fails (path : string) (w : world) :
  ¬ (dir_writable w = true ∧ fs w !! path ≠ Some Directory) →
  create_pipe path w = (Raise OSError, w).
Proof.
  intros Hno. unfold create_pipe, try_, mkfifo at 1.
  destruct (dir_writable w) eqn:Hw; cbn.
  - destruct (fs w !! path) as [[ino| |]|] eqn:Hp;
      try (destruct Hno; split; congruence).
    rewrite decide_True by done. unfold bind_, remove. by rewrite Hp.
  - rewrite decide_True by done. unfold bind_, remove.
    destruct (fs w !! path) as [[ino| |]|]; by rewrite ?Hw.
Qed.

Lemma write_raises (fd : nat) (data : list ascii) (w w' : world) (e : exn) :
  write fd data w = (Raise e, w') → e = OSError ∧ w' = w.
Proof.
  unfold write. repeat case_match; naive_solver.
Qed.

Lemma write_nonblock (fd ino : nat) (p : pipe) (data : list ascii) (w : world) :
  fds w !! fd = Some (OPipe ino true) →
  pipes w !! ino = Some p →
  write fd data w = (Raise OSError, w) ∨
  ∃ k, k ≤ length data ∧ (0 < k ∨ data = []) ∧
       write fd data w =
         (Ret k, set_pipe ino (Pipe (buf p ++ take k data) (cap p)) w).
Proof.
  intros Hfd Hp. unfold write. rewrite Hfd, Hp.
  case_decide as Hfit.
  - right. exists (length data). rewrite firstn_all.
    split_and!; [done| |done]. destruct data; cbn; [by right|left; lia].
  - cbn. case_decide as Hat; [by left|]. right.
    exists (room w ino p (length data)). split_and!; [lia|lia|done].
Qed.

Lemma room_full (w : world) (ino : nat) (p : pipe) (n : nat) :
  cap p ≤ length (buf p) → room w ino p n = 0.
Proof. unfold room. destruct (buf p); cbn; lia. Qed.

Lemma room_bound (w : world) (ino : nat) (p : pipe) (n : nat) :
  room w ino p n ≤ cap p - length (buf p).
Proof. unfold room. destruct (buf p); cbn; lia. Qed.

Lemma room_empty (w : world) (ino : nat) (p : pipe) (n : nat) :
  buf p = [] → room w ino p n = cap p.
Proof. unfold room. by intros ->. Qed.

Lemma write_full (fd ino : nat) (p : pipe) (data : list ascii) (w : world) :
  fds w !! fd = Some (OPipe ino true) →
  pipes w !! ino = Some p →
  cap p ≤ length (buf p) → data ≠ [] →
  write fd data w = (Raise OSError, w).
Proof.
  intros Hfd Hp Hfull Hne. unfold write. rewrite Hfd, Hp.
  rewrite (room_full _ _ _ _ Hfull).
  rewrite decide_False by (destruct data; cbn; [done|lia]).
  cbn. by rewrite decide_True by lia.
Qed.

End OSFacts.

(** ** The producer *)

Module ProducerFacts.
Import XTBug OrderFacts.

Section producer.
Context `{Countable K} {V : Type} `{!StrOf K} `{!PFormat V}.
Implicit Types (st : pstate (K:=K) (V:=V)) (d dic : gmap K V) (args : list K).

Lemma pstate_insert_id st r d :
  heap st !! r = Some d →
  set_heap (<[r := d]> (heap st)) st = st.
Proof. intros Hr. destruct st; unfold set_heap; cbn in *. by rewrite insert_id. Qed.

(** The loop over [args] never raises: it moves every requested name that
    the mapping has from the mapping to [dic], and skips the others. *)
Lemma extract_spec r args : ∀ dic st d,
  heap st !! r = Some d →
  ∃ dic' d',
    extract r args dic st =
      (Ret dic', set_heap (<[r := d']> (heap st)) st) ∧
    (∀ k, dic' !! k =
          if decide (k ∈ args)
          then match d !! k with Some v => Some v | None => dic !! k end
          else dic !! k) ∧
    (∀ k, d' !! k = if decide (k ∈ args) then None else d !! k).
Proof.
  induction args as [|each args IH]; intros dic st d Hr.
  - exists dic, d. cbn. unfold ret_. rewrite pstate_insert_id by done.
    split_and!; [done|..]; intros k; by rewrite decide_False by set_solver.
  - cbn [extract]. unfold bind_ at 1. unfold try_, bind_ at 1, dict_pop.
    rewrite Hr. destruct (d !! each) as [v|] eqn:Hd.
    + cbn. set (st1 := set_heap _ _).
      destruct (IH (<[each := v]> dic) st1 (delete each d)) as (dic' & d' & -> & Hdic & Hd').
      { subst st1. cbn. by rewrite lookup_insert_eq. }
      exists dic', d'. subst st1. unfold set_heap. cbn. rewrite insert_insert_eq.
      split_and!; [done|..]; intros k.
      * rewrite Hdic. destruct (decide (k = each)) as [-> | Hne].
        -- rewrite lookup_delete_eq, lookup_insert_eq, Hd.
           rewrite (decide_True (P := each ∈ each :: args)) by set_solver.
           by case_decide.
        -- rewrite lookup_delete_ne, lookup_insert_ne by done.
           repeat case_decide; try done; set_solver.
      * rewrite Hd'. destruct (decide (k = each)) as [-> | Hne].
        -- rewrite (decide_True (P := each ∈ each :: args)) by set_solver.
           case_decide; [done|]. by rewrite lookup_delete_eq.
        -- rewrite lookup_delete_ne by done.
           repeat case_decide; try done; set_solver.
    + unfold ret_. rewrite decide_True by done.
      destruct (IH dic st d Hr) as (dic' & d' & -> & Hdic & Hd').
      exists dic', d'. split_and!; [done|..]; intros k.
      * rewrite Hdic. destruct (decide (k = each)) as [-> | Hne].
        -- rewrite Hd.
           rewrite (decide_True (P := each ∈ each :: args)) by set_solver.
           by case_decide.
        -- repeat case_decide; try done; set_solver.
      * rewrite Hd'. destruct (decide (k = each)) as [-> | Hne].
        -- rewrite (decide_True (P := each ∈ each :: args)) by set_solver.
           by case_decide.
        -- repeat case_decide; try done; set_solver.
Qed.

Lemma lookup_requested d args k :
  filter (λ kv, kv.1 ∈ args) d !! k = if decide (k ∈ args) then d !! k else None.
Proof.
  rewrite map_lookup_filter. destruct (d !! k) as [v|]; cbn;
    case_decide; try done.
  - by rewrite option_guard_True.
  - by rewrite option_guard_False.
Qed.

Lemma lookup_not_requested d args k :
  filter (λ kv, kv.1 ∉ args) d !! k = if decide (k ∈ args) then None else d !! k.
Proof.
  rewrite map_lookup_filter. destruct (d !! k) as [v|]; cbn;
    case_decide; try done.
  - by rewrite option_guard_False by auto.
  - by rewrite option_guard_True.
Qed.

Lemma extract_empty r args st d :
  heap st !! r = Some d →
  extract r args ∅ st =
    (Ret (filter (λ kv, kv.1 ∈ args) d),
     set_heap (<[r := filter (λ kv, kv.1 ∉ args) d]> (heap st)) st).
Proof.
  intros Hr. destruct (extract_spec r args ∅ st d Hr) as (dic' & d' & -> & Hdic & Hd').
  assert (dic' = filter (λ kv, kv.1 ∈ args) d) as ->.
  { apply map_eq. intros k. rewrite Hdic, lookup_requested, lookup_empty.
    by destruct (d !! k), (decide (k ∈ args)). }
  assert (d' = filter (λ kv, kv.1 ∉ args) d) as ->; [|done].
  apply map_eq. intros k. by rewrite Hd', lookup_not_requested.
Qed.

Lemma call_unfold (self : xtbug) variables args f_back st d :
  heap st !! default f_back variables = Some d →
  __call__ self variables args f_back st =
  submit self (map_to_list (pickled d args))
    (set_heap
       (<[default f_back variables := filter (λ kv, kv.1 ∉ args) d]> (heap st))
       st).
Proof.
  intros Hr. unfold __call__, bind_ at 1. destruct args as [|each args].
  - unfold dict_items. rewrite Hr. cbn [pickled].
    rewrite (map_filter_id _ d) by (intros ?? _; set_solver).
    by rewrite pstate_insert_id.
  - unfold bind_ at 1. by rewrite (extract_empty _ _ _ d Hr).
Qed.

Lemma submit_unfold (self : xtbug) (items : list (K * V)) st :
  submit self items st =
  match OS.write (sout self)
          (Pickle.dumps_with (_pickle st) (snapshot items)) (os st) with
  | (Ret _, w) | (Raise OSError, w) => (Ret (), set_os w st)
  | (Raise e, w) => (Raise e, set_os w st)
  | (Block, w) => (Block, set_os w st)
  end.
Proof.
  unfold submit, try_, bind_, lift_os, ret_.
  destruct (OS.write _ _ _) as [[n|e|] w]; try done. by destruct e.
Qed.

(** A submission never raises, whatever the descriptor is. *)
Lemma submit_no_raise (self : xtbug) (items : list (K * V)) st (e : exn) :
  (submit self items st).1 ≠ Raise e.
Proof.
  rewrite submit_unfold.
  destruct (OS.write _ _ _) as [[n|e'|] w] eqn:E; try done.
  apply OSFacts.write_raises in E as [-> _]. done.
Qed.

Lemma submit_heap (self : xtbug) (items : list (K * V)) st :
  heap (submit self items st).2 = heap st.
Proof.
  rewrite submit_unfold.
  destruct (OS.write _ _ _) as [[n|e'|] w]; try done. by destruct e'.
Qed.

Lemma dumps_not_nil (mp : Pickle.memo_policy) (l : list (string * string)) :
  Pickle.dumps_with mp l ≠ [].
Proof.
  unfold Pickle.dumps_with. by destruct (Pickle.save_list _ _ _).1.
Qed.

Lemma snapshot_perm (items : list (K * V)) :
  snapshot items ≡ₚ (λ kv, (str kv.1, pformat kv.2)) <$> items.
Proof. apply sorted_perm. Qed.

Lemma elem_of_snapshot (m : gmap K V) (name val : string) :
  (name, val) ∈ snapshot (map_to_list m) ↔
  ∃ k v, m !! k = Some v ∧ name = str k ∧ val = pformat v.
Proof.
  rewrite snapshot_perm, list_elem_of_fmap. split.
  - intros ([k v] & [= -> ->] & Hin%elem_of_map_to_list). eauto.
  - intros (k & v & Hin%elem_of_map_to_list & -> & ->). by exists (k, v).
Qed.

Lemma pickled_lookup d args k v :
  pickled d args !! k = Some v → d !! k = Some v.
Proof.
  destruct args as [|a args]; [done|]. cbn.
  by intros [? _]%map_lookup_filter_Some.
Qed.

(** What a call does to the pipe behind its descriptor: the bytes handed
    to [os.write] are the pickle of the sorted pairs. When the pipe has
    room for them they are appended whole, on a blocking descriptor as
    well; on a non-blocking descriptor the pipe gains a prefix of them
    in every case; the call returns. *)
Lemma call_written (self : xtbug) variables args f_back st d :
  heap st !! default f_back variables = Some d →
  (∀ ino b p,
     OS.fds (os st) !! sout self = Some (OS.OPipe ino b) →
     OS.pipes (os st) !! ino = Some p →
     length (Pickle.dumps_with (_pickle st)
               (snapshot (map_to_list (pickled d args))))
       ≤ OS.room (os st) ino p
           (length (Pickle.dumps_with (_pickle st)
                      (snapshot (map_to_list (pickled d args))))) →
     (__call__ self variables args f_back st).1 = Ret () ∧
     OS.pending (sout self) (os (__call__ self variables args f_back st).2)
       = Some (OS.buf p ++
               Pickle.dumps_with (_pickle st)
                 (snapshot (map_to_list (pickled d args))))) ∧
  (∀ ino p,
     OS.fds (os st) !! sout self = Some (OS.OPipe ino true) →
     OS.pipes (os st) !! ino = Some p →
     ∃ k,
       (__call__ self variables args f_back st).1 = Ret () ∧
       OS.pending (sout self) (os (__call__ self variables args f_back st).2)
         = Some (OS.buf p ++
                 take k (Pickle.dumps_with (_pickle st)
                           (snapshot (map_to_list (pickled d args)))))).
Proof.
  intros Hr. rewrite (call_unfold _ _ _ _ _ d Hr), submit_unfold.
  unfold set_heap. cbn [os _pickle].
  set (data := Pickle.dumps_with _ _). split.
  - intros ino b p Hfd Hp Hfit. unfold OS.write. rewrite Hfd, Hp.
    rewrite decide_True by done. cbn. unfold OS.pending. cbn.
    by rewrite Hfd, lookup_insert_eq.
  - intros ino p Hfd Hp.
    destruct (OSFacts.write_nonblock _ _ _ data _ Hfd Hp)
      as [-> | (k & Hk & Hpos & ->)].
    + exists 0. cbn. unfold OS.pending. by rewrite Hfd, Hp, app_nil_r.
    + exists k. cbn. unfold OS.pending. cbn.
      by rewrite Hfd, lookup_insert_eq.
Qed.

(** [__init__] step by step: the pipe is made or the construction ends
    there; then the xterm is launched or the construction ends with the
    pipe made; then the pipe is opened or the construction ends with the
    pipe made and the xterm launched. *)
Lemma init_unfold st :
  __init__ st =
  let path := _PIPE (_count st) in
  let argv := options "white" "blue" 120 60 true path (_count st) in
  let st0 := PState (os st) (_pickle st) (S (_count st)) (heap st) in
  let w1 :=
    OS.World true (<[path := OS.Fifo (OS.next_ino (os st))]> (OS.fs (os st)))
      (<[OS.next_ino (os st) := OS.Pipe [] (OS.new_cap (os st))]>
         (OS.pipes (os st)))
      (OS.fds (os st)) (S (OS.next_ino (os st))) (OS.new_cap (os st))
      (OS.page_room (os st)) (OS.can_open (os st)) (OS.can_launch (os st))
      (OS.procs (os st)) in
  let w2 := OS.set_procs (OS.procs (os st) ++ [argv]) w1 in
  let fd := fresh (dom (OS.fds (os st))) in
  if decide (OS.dir_writable (os st) = true ∧
             OS.fs (os st) !! path ≠ Some OS.Directory) then
    if OS.can_launch (os st) argv then
      if OS.can_open (os st) path then
        (Ret (Instance_ (_count st) path (length (OS.procs (os st))) fd),
         set_os (OS.set_fds (<[fd := OS.OPipe (OS.next_ino (os st)) true]>
                               (OS.fds (os st))) w2) st0)
      else (Raise OSError, set_os w2 st0)
    else (Raise OSError, set_os w1 st0)
  else (Raise OSError, st0).
Proof.
  cbv zeta. unfold __init__, init, bind_ at 1, lift_os at 1. cbn [os].
  case_decide as Hc.
  - destruct Hc as [Hw Hd]. rewrite OSFacts.create_pipe_ok by done.
    unfold bind_ at 1, lift_os at 1, OS.popen. cbn.
    destruct (OS.can_launch (os st) _); [|done].
    unfold bind_, lift_os, OS.open_rdwr. cbn.
    destruct (OS.can_open (os st) _); [|done]. cbn.
    by rewrite lookup_insert_eq.
  - rewrite OSFacts.create_pipe_fails by done. by destruct st.
Qed.

(** C1. The descriptor [__init__] opens is a non-blocking one. A call on
    a non-blocking pipe descriptor returns normally: it neither raises
    nor suspends the caller; the pipe then holds what it held, followed
    by a prefix (nothing, or all when it fitted) of the one pickled
    snapshot; on a full pipe nothing at all changes in the operating
    system. *)
Theorem C1_submit_never_blocks_nor_raises :
  (∀ st (self : xtbug) st',
     __init__ st = (Ret self, st') →
     ∃ ino, OS.fds (os st') !! sout self = Some (OS.OPipe ino true)) ∧
  (∀ (self : xtbug) variables args f_back st d ino p,
     heap st !! default f_back variables = Some d →
     OS.fds (os st) !! sout self = Some (OS.OPipe ino true) →
     OS.pipes (os st) !! ino = Some p →
     ∃ st' k,
       __call__ self variables args f_back st = (Ret (), st') ∧
       OS.fds (os st') = OS.fds (os st) ∧
       OS.pipes (os st') !! ino =
         Some (OS.Pipe (OS.buf p ++
                 take k (Pickle.dumps_with (_pickle st)
                           (snapshot (map_to_list (pickled d args)))))
               (OS.cap p)) ∧
       (OS.cap p ≤ length (OS.buf p) → os st' = os st)).
Proof.
  split.
  - intros st self st'. rewrite init_unfold. cbv zeta.
    repeat case_match; try done. intros [= <- <-]. cbn.
    eexists. by rewrite lookup_insert_eq.
  - intros self variables args f_back st d ino p Hr Hfd Hp.
    rewrite (call_unfold _ _ _ _ _ d Hr), submit_unfold.
    unfold set_heap. cbn [os _pickle].
    set (data := Pickle.dumps_with _ _).
    assert (∀ w, OS.write (sout self) data (os st) = (Raise OSError, w) →
                 w = os st) as Hsame
      by (by intros w [_ ->]%OSFacts.write_raises).
    destruct (decide (OS.cap p ≤ length (OS.buf p))) as [Hfull | Hroom].
    + rewrite (OSFacts.write_full _ _ _ data _ Hfd Hp Hfull (dumps_not_nil _ _)).
      eexists _, 0. split_and!; [done..| |done].
      cbn. rewrite Hp, app_nil_r. by destruct p.
    + destruct (OSFacts.write_nonblock _ _ _ data _ Hfd Hp)
        as [-> | (k & Hk & Hpos & ->)].
      * eexists _, 0. split_and!; [done..| |done].
        cbn. rewrite Hp, app_nil_r. by destruct p.
      * eexists _, k. split_and!; [done..| |done].
        cbn. by rewrite lookup_insert_eq.
Qed.

(** C2. What a call pickles is the list of the pairs
    (str(name), pformat(value)) of the mapping, sorted ascending by
    name, and the consumer decodes exactly that list. The pickle of that
    list is what the call writes: a pipe that has room for it holds it
    afterwards, whole, behind what it held, and on a non-blocking
    descriptor the pipe gains a prefix of it in every case. *)
Theorem C2_snapshot_sorted_by_name (self : xtbug) variables f_back st d rest :
  heap st !! default f_back variables = Some d →
  __call__ self variables [] f_back st = submit self (map_to_list d) st ∧
  snapshot (map_to_list d) ≡ₚ (λ kv, (str kv.1, pformat kv.2)) <$> map_to_list d ∧
  StronglySorted name_le (snapshot (map_to_list d)) ∧
  Renderer.decode
    (Pickle.dumps_with (_pickle st) (snapshot (map_to_list d)) ++ rest)
    = Ret (snapshot (map_to_list d), rest) ∧
  (∀ ino b p,
     OS.fds (os st) !! sout self = Some (OS.OPipe ino b) →
     OS.pipes (os st) !! ino = Some p →
     length (Pickle.dumps_with (_pickle st) (snapshot (map_to_list d)))
       ≤ OS.room (os st) ino p
           (length (Pickle.dumps_with (_pickle st)
                      (snapshot (map_to_list d)))) →
     (__call__ self variables [] f_back st).1 = Ret () ∧
     OS.pending (sout self) (os (__call__ self variables [] f_back st).2)
       = Some (OS.buf p ++
               Pickle.dumps_with (_pickle st) (snapshot (map_to_list d)))) ∧
  (∀ ino p,
     OS.fds (os st) !! sout self = Some (OS.OPipe ino true) →
     OS.pipes (os st) !! ino = Some p →
     ∃ k,
       (__call__ self variables [] f_back st).1 = Ret () ∧
       OS.pending (sout self) (os (__call__ self variables [] f_back st).2)
         = Some (OS.buf p ++
                 take k (Pickle.dumps_with (_pickle st)
                           (snapshot (map_to_list d))))).
Proof.
  intros Hr.
  destruct (call_written self variables [] f_back st d Hr) as [Hfit Hpre].
  split_and!.
  - rewrite (call_unfold self variables [] f_back st d Hr). cbn [pickled].
    rewrite (map_filter_id _ d) by (intros ?? _; set_solver).
    by rewrite pstate_insert_id.
  - apply snapshot_perm.
  - apply sorted_name_le.
  - apply WireFacts.decode_dumps_with.
  - exact Hfit.
  - exact Hpre.
Qed.

(** C4, amended. When the keys of the mapping stringify to pairwise
    distinct names (as the string keys of [locals()] do), the snapshot of
    a call, with or without requested names, has one pair per name, is
    sorted by name, and pairs each name with the rendering of the value
    the mapping holds for it, and with no other. The pickle of that
    snapshot is what the call writes (whole into a pipe that has room for
    it, a prefix of it in every case) and the consumer decodes it to
    that snapshot. *)
Theorem C4_one_pair_per_name_when_str_injective
    (self : xtbug) variables args f_back st d :
  heap st !! default f_back variables = Some d →
  (∀ k1 k2, is_Some (d !! k1) → is_Some (d !! k2) → str k1 = str k2 → k1 = k2) →
  NoDup (snapshot (map_to_list (pickled d args))).*1 ∧
  StronglySorted name_le (snapshot (map_to_list (pickled d args))) ∧
  (∀ name val,
     (name, val) ∈ snapshot (map_to_list (pickled d args)) ↔
     ∃ k v, pickled d args !! k = Some v ∧ name = str k ∧ val = pformat v) ∧
  (∀ name val1 val2,
     (name, val1) ∈ snapshot (map_to_list (pickled d args)) →
     (name, val2) ∈ snapshot (map_to_list (pickled d args)) →
     val1 = val2) ∧
  Renderer.decode
    (Pickle.dumps_with (_pickle st) (snapshot (map_to_list (pickled d args))))
    = Ret (snapshot (map_to_list (pickled d args)), []) ∧
  (∀ ino b p,
     OS.fds (os st) !! sout self = Some (OS.OPipe ino b) →
     OS.pipes (os st) !! ino = Some p →
     length (Pickle.dumps_with (_pickle st)
               (snapshot (map_to_list (pickled d args))))
       ≤ OS.room (os st) ino p
           (length (Pickle.dumps_with (_pickle st)
                      (snapshot (map_to_list (pickled d args))))) →
     (__call__ self variables args f_back st).1 = Ret () ∧
     OS.pending (sout self) (os (__call__ self variables args f_back st).2)
       = Some (OS.buf p ++
               Pickle.dumps_with (_pickle st)
                 (snapshot (map_to_list (pickled d args))))) ∧
  (∀ ino p,
     OS.fds (os st) !! sout self = Some (OS.OPipe ino true) →
     OS.pipes (os st) !! ino = Some p →
     ∃ k,
       (__call__ self variables args f_back st).1 = Ret () ∧
       OS.pending (sout self) (os (__call__ self variables args f_back st).2)
         = Some (OS.buf p ++
                 take k (Pickle.dumps_with (_pickle st)
                           (snapshot (map_to_list (pickled d args)))))).
Proof.
  intros Hr Hinj.
  destruct (call_written self variables args f_back st d Hr) as [Hfit Hpre].
  assert (NoDup (snapshot (map_to_list (pickled d args))).*1) as Hnd.
  { rewrite snapshot_perm, <- list_fmap_compose.
    change (NoDup ((str ∘ fst) <$> map_to_list (pickled d args))).
    rewrite list_fmap_compose. apply NoDup_fmap_2_strong.
    + intros k1 k2 [[k1' v1] [-> Hin1%elem_of_map_to_list]]%list_elem_of_fmap
                   [[k2' v2] [-> Hin2%elem_of_map_to_list]]%list_elem_of_fmap.
      apply pickled_lookup in Hin1, Hin2. cbn. apply Hinj; eauto.
    + apply NoDup_fst_map_to_list. }
  split_and!.
  - exact Hnd.
  - apply sorted_name_le.
  - intros name val. apply elem_of_snapshot.
  - intros name val1 val2
      (k1 & v1 & Hk1 & -> & ->)%elem_of_snapshot
      (k2 & v2 & Hk2 & Hstr & ->)%elem_of_snapshot.
    assert (k1 = k2) as ->.
    { apply Hinj; [| |done]; eexists; by eapply pickled_lookup. }
    congruence.
  - rewrite <- (app_nil_r (Pickle.dumps_with _ _)).
    apply WireFacts.decode_dumps_with.
  - exact Hfit.
  - exact Hpre.
Qed.

(** C6. With names given, the loop over them raises nothing; the pickled
    snapshot is built from exactly the entries of the mapping whose name
    was requested, each with the value the mapping held, and a requested
    name the mapping lacks contributes nothing. *)
Theorem C6_named_extraction (self : xtbug) variables args f_back st d :
  args ≠ [] →
  heap st !! default f_back variables = Some d →
  ∃ st',
    extract (default f_back variables) args ∅ st = (Ret (pickled d args), st') ∧
    __call__ self variables args f_back st
      = submit self (map_to_list (pickled d args)) st' ∧
    (∀ e, (__call__ self variables args f_back st).1 ≠ Raise e) ∧
    (∀ k, pickled d args !! k = if decide (k ∈ args) then d !! k else None) ∧
    (∀ name val,
       (name, val) ∈ snapshot (map_to_list (pickled d args)) ↔
       ∃ k v, k ∈ args ∧ d !! k = Some v ∧ name = str k ∧ val = pformat v).
Proof.
  intros Hargs Hr. eexists.
  assert (pickled d args = filter (λ kv, kv.1 ∈ args) d) as Hp
    by by destruct args.
  split_and!.
  - rewrite Hp. by apply extract_empty.
  - by apply call_unfold.
  - intros e. rewrite (call_unfold _ _ _ _ _ d Hr). apply submit_no_raise.
  - intros k. rewrite Hp. apply lookup_requested.
  - intros name val. rewrite elem_of_snapshot. split.
    + intros (k & v & Hk & -> & ->). exists k, v.
      rewrite Hp, lookup_requested in Hk. by case_decide.
    + intros (k & v & Hin & Hk & -> & ->). exists k, v.
      rewrite Hp, lookup_requested. by rewrite decide_True.
Qed.

(** C9. With names given, the call changes the caller's mapping in place:
    afterwards it lacks every requested name and holds every other name
    as before; no other mapping of the process changes. *)
Theorem C9_named_extraction_pops (self : xtbug) variables args f_back st d :
  args ≠ [] →
  heap st !! default f_back variables = Some d →
  ∃ d',
    heap (__call__ self variables args f_back st).2
      !! default f_back variables = Some d' ∧
    (∀ k, k ∈ args → d' !! k = None) ∧
    (∀ k, k ∉ args → d' !! k = d !! k) ∧
    (∀ r', r' ≠ default f_back variables →
       heap (__call__ self variables args f_back st).2 !! r' = heap st !! r').
Proof.
  intros _ Hr. exists (filter (λ kv, kv.1 ∉ args) d).
  rewrite (call_unfold _ _ _ _ _ d Hr), submit_heap.
  unfold set_heap. cbn [heap].
  split_and!.
  - by rewrite lookup_insert_eq.
  - intros k Hk. by rewrite lookup_not_requested, decide_True.
  - intros k Hk. by rewrite lookup_not_requested, decide_False.
  - intros r' Hne. by rewrite lookup_insert_ne.
Qed.


(** C8, amended. [__del__] on an instance whose descriptor is open closes
    it and returns; called again, when the descriptor has been released,
    it raises [OSError]. *)
Theorem C8_del_once_then_raises (self : xtbug) st :
  is_Some (OS.fds (os st) !! sout self) →
  ∃ st',
    __del__ self st = (Ret (), st') ∧
    OS.fds (os st') !! sout self = None ∧
    __del__ self st' = (Raise OSError, st').
Proof.
  intros [o Ho]. unfold __del__, lift_os, OS.close. rewrite Ho.
  eexists. split; [done|]. cbn. rewrite lookup_delete_eq. by destruct st.
Qed.

End producer.
End ProducerFacts.

(** ** The consumer *)

Module RendererFacts.
Import Renderer.

Lemma repaint_same (out : string) (r : rstate) :
  ¬ (out ≠ EmptyString ∧ out ≠ outprev r) → repaint out r = (Ret (), r).
Proof. intros Hno. unfold repaint. by rewrite decide_False. Qed.

Lemma repaint_new (out : string) (r : rstate) :
  out ≠ EmptyString → out ≠ outprev r →
  repaint out r =
  if fits r out then
    (Ret (), RState out (ops r ++ [Clear; AddStr out; Refresh]) (fits r))
  else if PyStr.contains PyStr.NUL out then
    (Raise TypeError, RState (outprev r) (ops r ++ [Clear]) (fits r))
  else if fits r too_long then
    (Ret (), RState out (ops r ++ [Clear; AddStr too_long; Refresh]) (fits r))
  else (Raise CursesError, RState (outprev r) (ops r ++ [Clear]) (fits r)).
Proof.
  intros H1 H2. unfold repaint. rewrite decide_True by done.
  unfold bind_ at 1. unfold scr_do at 1. unfold bind_ at 1.
  unfold try_, addstr at 1. cbn [fits ops outprev].
  destruct (fits r out) eqn:Hout.
  - unfold bind_, scr_do, set_outprev. cbn. by rewrite <- !app_assoc.
  - destruct (PyStr.contains PyStr.NUL out); [by rewrite decide_False|].
    rewrite decide_True by done. unfold addstr. cbn [fits].
    destruct (fits r too_long) eqn:Hmsg; [|done].
    unfold bind_, scr_do, set_outprev. cbn. by rewrite <- !app_assoc.
Qed.

Lemma repaints_app (r : rstate) (l : list scr_op) :
  repaints (RState (outprev r) (ops r ++ l) (fits r)) =
  repaints r + length (filter (λ o, o = Clear) l).
Proof. unfold repaints. cbn. by rewrite filter_app, length_app. Qed.

(** A turn repaints at most once and never suspends. *)
Lemma render_bound (rows : list (string * string)) (r r' : rstate)
    (res : outcome unit) :
  render rows r = (res, r') →
  (res = Ret () ∨ res = Raise CursesError ∨ res = Raise TypeError) ∧
  repaints r' ≤ S (repaints r) ∧
  (res = Ret () → ops r' ≠ ops r → outprev r' = format rows).
Proof.
  unfold render.
  destruct (decide (format rows ≠ EmptyString ∧ format rows ≠ outprev r))
    as [[H1 H2]|Hno].
  - rewrite repaint_new by done. unfold repaints.
    repeat case_match; intros [= <- <-]; cbn;
      rewrite filter_app, length_app; cbn;
      repeat case_decide; try done; cbn; (split_and!; [auto|lia|done]).
  - rewrite repaint_same by done. intros [= <- <-].
    split_and!; [auto|lia|done].
Qed.

Lemma format_nil : format [] = EmptyString.
Proof. reflexivity. Qed.

Lemma decode_eof : decode [] = Raise EOFError.
Proof. reflexivity. Qed.

Lemma unquote_no_block (rep : list ascii) : Pickle.unquote rep ≠ Block.
Proof.
  unfold Pickle.unquote. destruct rep; [done|]. repeat case_decide; done.
Qed.

Lemma dispatch_no_block (u : Pickle.unpickler) (s : list ascii) :
  Pickle.dispatch u s ≠ Block.
Proof.
  destruct s as [|op s]; [done|]. unfold Pickle.dispatch.
  repeat case_decide; try done.
  - by destruct (Pickle.stack u).
  - destruct (Pickle.readline s) as [l s2].
    destruct (Pickle.unquote _) as [body| |] eqn:E; cbn; try done.
    + by destruct (PyStr.decode_escape body) eqn:E';
        [..|apply PyStrFacts.decode_escape_no_block in E'].
    + by apply unquote_no_block in E.
  - destruct (Pickle.readline s) as [l s2]. by destruct (Pickle.stack u).
  - destruct (Pickle.readline s) as [l s2]. by destruct (_ !! _).
  - by destruct (Pickle.pop_to_mark _) as [[??]|].
  - by destruct (Pickle.pop_to_mark _) as [[??]|].
  - by destruct (Pickle.stack u) as [|? [|[] ?]].
Qed.

Lemma load_no_block (s : list ascii) : Pickle.load s ≠ Block.
Proof.
  unfold Pickle.load, Pickle.load_from.
  generalize (S (length s)) (Pickle.Unpickler [] ∅). intros f. revert s.
  induction f as [|f IH]; intros s u; [done|]. cbn.
  destruct (Pickle.dispatch u s) as [[u' rest|v rest]| |] eqn:E; try done.
  by apply dispatch_no_block in E.
Qed.

Lemma pair_of_no_block (o : Pickle.pyobj) : pair_of o ≠ Block.
Proof. unfold pair_of. by repeat case_match. Qed.

Lemma pairs_of_no_block (o : Pickle.pyobj) : pairs_of o ≠ Block.
Proof.
  destruct o as [| | |l]; try done. cbn.
  induction l as [|x l IH]; [done|]. cbn.
  destruct (pair_of x) eqn:Ex; cbn; [|done|by apply pair_of_no_block in Ex].
  by destruct (pairs_of_list l).
Qed.

Lemma turn_cases (r r' : rstate) (s s' : list ascii) (res : outcome unit) :
  turn (r, s) = (res, (r', s')) →
  res ≠ Block ∧ (res = Ret () → length s' < length s).
Proof.
  unfold turn. destruct (decode s) as [[rows rest]|e|] eqn:E.
  - destruct (render rows r) as [res' r1] eqn:Hr. intros [= <- <- <-].
    apply render_bound in Hr as ([-> | [-> | ->]] & _); split; try done.
    intros _. by eapply WireFacts.decode_rest_shorter.
  - by intros [= <- <- <-].
  - unfold decode in E. destruct (Pickle.load s) as [[o rest]| |] eqn:El; try done.
    + cbn in E. destruct (pairs_of o) eqn:Ep; try done.
      by apply pairs_of_no_block in Ep.
    + by apply load_no_block in El.
Qed.

(** The fuel [main] gives its loop is never used up: on every stream that
    ends the loop ends, by an exception. *)
Lemma main_total (r : rstate) (sin : list ascii) : is_Some (main r sin).
Proof.
  unfold main. generalize (S (length sin)) (Nat.lt_succ_diag_r (length sin)).
  intros f. revert r sin. induction f as [|f IH]; intros r sin Hf; [lia|].
  cbn [main_go]. destruct (turn (r, sin)) as [res [r' s']] eqn:E.
  apply turn_cases in E as [Hnb Hlt].
  destruct res as [[]|e|]; [|done..]. apply IH. specialize (Hlt eq_refl). lia.
Qed.

Lemma render_twice (rows : list (string * string)) (r r1 : rstate) :
  render rows r = (Ret (), r1) → render rows r1 = (Ret (), r1).
Proof.
  unfold render. intros Hr. apply repaint_same. intros [H1 H2].
  destruct (decide (format rows ≠ outprev r)) as [Hnew|Hold].
  - rewrite repaint_new in Hr by done.
    repeat case_match; simplify_eq/=; done.
  - rewrite repaint_same in Hr by tauto. by simplify_eq.
Qed.

(** C5. The loop repaints only when the text it formatted is not empty
    and differs from the text it rendered last; a snapshot equal to the
    one just rendered changes nothing, and a stream holding the same
    snapshot twice leads to at most one repaint. *)
Theorem C5_repaint_only_on_change :
  (∀ rows r res r',
     render rows r = (res, r') → ops r' ≠ ops r →
     format rows ≠ EmptyString ∧ format rows ≠ outprev r) ∧
  (∀ rows r r1,
     render rows r = (Ret (), r1) → render rows r1 = (Ret (), r1)) ∧
  (∀ mp1 mp2 rows r,
     ∃ e r', main r (Pickle.dumps_with mp1 rows ++ Pickle.dumps_with mp2 rows)
               = Some (e, r') ∧
             repaints r' ≤ S (repaints r)).
Proof.
  split_and!.
  - intros rows r res r' Hr Hops.
    destruct (decide (format rows ≠ EmptyString ∧ format rows ≠ outprev r))
      as [|Hno]; [done|].
    unfold render in Hr. rewrite repaint_same in Hr by done. by simplify_eq.
  - apply render_twice.
  - intros mp1 mp2 rows r. unfold main.
    assert (2 ≤ length (Pickle.dumps_with mp1 rows ++ Pickle.dumps_with mp2 rows))
      as Hlen.
    { rewrite length_app. unfold Pickle.dumps_with.
      rewrite !length_app. cbn. lia. }
    destruct (length _) as [|[|n]]; [lia..|]. clear Hlen.
    cbn [main_go]. rewrite WireFacts.turn_dumps.
    destruct (render rows r) as [res r1] eqn:Hr. cbn [fst snd].
    pose proof (render_bound _ _ _ _ Hr) as ([-> | [-> | ->]] & Hle & _).
    + rewrite <- (app_nil_r (Pickle.dumps_with mp2 rows)), WireFacts.turn_dumps.
      rewrite (render_twice _ _ _ Hr). cbn [fst snd].
      destruct n; cbn; eauto.
    + eauto.
    + eauto.
Qed.

(** C10. A snapshot without pairs formats to the empty text; the loop
    then leaves the window and [outprev] as they are, whatever was
    rendered before. An empty mapping gives such a snapshot. *)
Theorem C10_empty_snapshot_no_repaint :
  format [] = EmptyString ∧
  (∀ r, render [] r = (Ret (), r)) ∧
  (∀ mp r rest,
     turn (r, Pickle.dumps_with mp [] ++ rest) = (Ret (), (r, rest))) ∧
  XTBug.snapshot (map_to_list (∅ : gmap string pyval)) = [].
Proof.
  assert (∀ r, render [] r = (Ret (), r)) as Hr.
  { intros r. apply repaint_same. by intros [? _]. }
  split_and!; [done|done| |].
  - intros mp r rest. by rewrite WireFacts.turn_dumps, Hr.
  - unfold XTBug.snapshot. by rewrite map_to_list_empty.
Qed.

End RendererFacts.

(** ** Concrete runs of the properties *)

Module RunFacts.
Import XTBug Renderer ProducerFacts RendererFacts Run.
Local Open Scope string_scope.

Example init_st0 : __init__ st0 = (Ret self0, st1).
Proof. reflexivity. Qed.

(** The first submission of [d0] puts one record into the pipe. *)
Example first_submission :
  OS.pending 0 (os (__call__ self0 (Some 0) [] 0 st1).2) =
  Some (Pickle.dumps [("a", "1"); ("b", "'x'")]).
Proof. by vm_compute. Qed.

(** [pickle.dumps([('a', '1')])] *)
Example dumps_bytes :
  Pickle.dumps [("a", "1")] =
  list_ascii_of_string "(lp0
(S'a'
p1
S'1'
p2
tp3
a.".
Proof. by vm_compute. Qed.

Example dumps_bytes_other_memo :
  Pickle.dumps_with list_and_tuple [("a", "1")] =
  list_ascii_of_string "(lp1
(S'a'
S'1'
tp2
a.".
Proof. by vm_compute. Qed.

(** A record that does not fit a pipe with 10 free bytes is dropped: the
    call returns and the pipe is as before. *)
Example submission_dropped :
  __call__ self0 (Some 0) [] 0 (st_filled 4086) = (Ret (), st_filled 4086).
Proof. reflexivity. Qed.

(** [{'a': '1', 'b': '2'}] twice, then [{'a': '3', 'b': '2'}]: two
    repaints, and the loop ends at the end of the stream. *)
Example three_submissions :
  ∃ r, main r0 (Pickle.dumps [("a", "1"); ("b", "2")] ++
                Pickle.dumps [("a", "1"); ("b", "2")] ++
                Pickle.dumps [("a", "3"); ("b", "2")]) = Some (EOFError, r) ∧
       repaints r = 2 ∧
       outprev r = format [("a", "3"); ("b", "2")].
Proof. eexists. by vm_compute. Qed.

Example row_example :
  row ("a", "1") = "a ........................... 1
".
Proof. by vm_compute. Qed.

(** *** The theorems at these runs *)

Lemma C1_witness :
  (heap st1 !! 0 = Some d0 ∧
   OS.fds (os st1) !! sout self0 = Some (OS.OPipe 0 true) ∧
   OS.pipes (os st1) !! 0 = Some (OS.Pipe [] 4096)) ∧
  ∃ st' k,
    __call__ self0 (Some 0) ["a"; "z"] 0 st1 = (Ret (), st') ∧
    OS.fds (os st') = OS.fds (os st1) ∧
    OS.pipes (os st') !! 0 =
      Some (OS.Pipe ([] ++
              take k (Pickle.dumps
                        (snapshot (map_to_list (pickled d0 ["a"; "z"])))))
            4096) ∧
    ((4096 ≤ 0)%nat → os st' = os st1).
Proof.
  split.
  - vm_compute. auto.
  - apply (proj2 C1_submit_never_blocks_nor_raises
             self0 (Some 0) ["a"; "z"] 0 st1 d0 0 (OS.Pipe [] 4096));
      reflexivity.
Defined.

Lemma C2_witness :
  heap st1 !! 0 = Some d0 ∧
  (__call__ self0 (Some 0) [] 0 st1 = submit self0 (map_to_list d0) st1 ∧
   snapshot (map_to_list d0)
     ≡ₚ (λ kv, (str kv.1, pformat kv.2)) <$> map_to_list d0 ∧
   StronglySorted name_le (snapshot (map_to_list d0)) ∧
   decode (Pickle.dumps (snapshot (map_to_list d0)) ++ [])%list
     = Ret (snapshot (map_to_list d0), []) ∧
   (__call__ self0 (Some 0) [] 0 st1).1 = Ret () ∧
   OS.pending (sout self0) (os (__call__ self0 (Some 0) [] 0 st1).2)
     = Some ([] ++ Pickle.dumps (snapshot (map_to_list d0)))%list).
Proof.
  split; [reflexivity|].
  destruct (C2_snapshot_sorted_by_name self0 (Some 0) 0 st1 d0 [] eq_refl)
    as (Hcall & Hperm & Hsorted & Hdec & Hfit & _).
  split_and!; [exact Hcall|exact Hperm|exact Hsorted|exact Hdec|..];
    apply (Hfit 0 true (OS.Pipe [] 4096) eq_refl eq_refl);
    apply Nat.leb_le; vm_compute; reflexivity.
Defined.

Lemma C4_witness :
  heap st1 !! 0 = Some d0 ∧
  NoDup (snapshot (map_to_list (pickled d0 ["b"; "a"; "b"]))).*1 ∧
  StronglySorted name_le (snapshot (map_to_list (pickled d0 ["b"; "a"; "b"]))) ∧
  (∀ name val,
     (name, val) ∈ snapshot (map_to_list (pickled d0 ["b"; "a"; "b"])) ↔
     ∃ k v, pickled d0 ["b"; "a"; "b"] !! k = Some v ∧
            name = str k ∧ val = pformat v) ∧
  (∀ name val1 val2,
     (name, val1) ∈ snapshot (map_to_list (pickled d0 ["b"; "a"; "b"])) →
     (name, val2) ∈ snapshot (map_to_list (pickled d0 ["b"; "a"; "b"])) →
     val1 = val2) ∧
  decode (Pickle.dumps (snapshot (map_to_list (pickled d0 ["b"; "a"; "b"]))))
    = Ret (snapshot (map_to_list (pickled d0 ["b"; "a"; "b"])), []) ∧
  (__call__ self0 (Some 0) ["b"; "a"; "b"] 0 st1).1 = Ret () ∧
  OS.pending (sout self0)
    (os (__call__ self0 (Some 0) ["b"; "a"; "b"] 0 st1).2)
    = Some ([] ++ Pickle.dumps
                    (snapshot (map_to_list (pickled d0 ["b"; "a"; "b"]))))%list.
Proof.
  split; [reflexivity|].
  destruct (C4_one_pair_per_name_when_str_injective
              self0 (Some 0) ["b"; "a"; "b"] 0 st1 d0 eq_refl)
    as (Hnd & Hsorted & Hin & Hfun & Hdec & Hfit & _).
  { intros k1 k2 _ _ Hstr. exact Hstr. }
  split_and!;
    [exact Hnd|exact Hsorted|exact Hin|exact Hfun|exact Hdec|..];
    apply (Hfit 0 true (OS.Pipe [] 4096) eq_refl eq_refl);
    apply Nat.leb_le; vm_compute; reflexivity.
Defined.

(** The mapping [{1: 'x', '1': 'y'}] is decoded as two pairs named
    ['1']. *)
Lemma C4_counterexample :
  ∃ bytes,
    OS.pending 0 (os (__call__ self0 (Some 0) [] 0 st_keys).2) = Some bytes ∧
    decode bytes = Ret ([("1", "'x'"); ("1", "'y'")], []) ∧
    ¬ NoDup [("1", "'x'"); ("1", "'y'")].*1.
Proof.
  eexists. split_and!; [by vm_compute..|].
  cbn. rewrite NoDup_cons. intros [Hnin _]. apply Hnin. by left.
Qed.

Lemma C5_witness :
  (render [("a", "1")] r0
     = ((render [("a", "1")] r0).1, (render [("a", "1")] r0).2) ∧
   ops (render [("a", "1")] r0).2 ≠ ops r0) ∧
  (format [("a", "1")] ≠ EmptyString ∧ format [("a", "1")] ≠ outprev r0).
Proof.
  split.
  - split; [reflexivity|]. vm_compute. discriminate.
  - apply (proj1 C5_repaint_only_on_change [("a", "1")] r0
             (render [("a", "1")] r0).1 (render [("a", "1")] r0).2).
    + reflexivity.
    + vm_compute. discriminate.
Defined.

Lemma C6_witness :
  (["a"; "z"] ≠ [] ∧ heap st1 !! 0 = Some d0) ∧
  ∃ st',
    extract 0 ["a"; "z"] ∅ st1 = (Ret (pickled d0 ["a"; "z"]), st') ∧
    __call__ self0 (Some 0) ["a"; "z"] 0 st1
      = submit self0 (map_to_list (pickled d0 ["a"; "z"])) st' ∧
    (∀ e, (__call__ self0 (Some 0) ["a"; "z"] 0 st1).1 ≠ Raise e) ∧
    (∀ k, pickled d0 ["a"; "z"] !! k
          = if decide (k ∈ ["a"; "z"]) then d0 !! k else None) ∧
    (∀ name val,
       (name, val) ∈ snapshot (map_to_list (pickled d0 ["a"; "z"])) ↔
       ∃ k v, k ∈ ["a"; "z"] ∧ d0 !! k = Some v ∧
              name = str k ∧ val = pformat v).
Proof.
  split; [split; [discriminate|reflexivity]|].
  apply (C6_named_extraction self0 (Some 0) ["a"; "z"] 0 st1 d0).
  - discriminate.
  - reflexivity.
Defined.



Lemma C8_witness :
  is_Some (OS.fds (os st1) !! sout self0) ∧
  ∃ st',
    __del__ self0 st1 = (Ret (), st') ∧
    OS.fds (os st') !! sout self0 = None ∧
    __del__ self0 st' = (Raise OSError, st').
Proof.
  assert (is_Some (OS.fds (os st1) !! sout self0)) as Hopen
    by (vm_compute; eauto).
  split; [exact Hopen|].
  exact (C8_del_once_then_raises self0 st1 Hopen).
Defined.

(** The second [__del__] of an instance raises. *)
Lemma C8_counterexample :
  (__del__ self0 st1).1 = Ret () ∧
  (__del__ self0 (__del__ self0 st1).2).1 = Raise OSError.
Proof. split; by vm_compute. Qed.

Lemma C9_witness :
  (["a"; "z"] ≠ [] ∧ heap st1 !! 0 = Some d0) ∧
  ∃ d',
    heap (__call__ self0 (Some 0) ["a"; "z"] 0 st1).2 !! 0 = Some d' ∧
    (∀ k, k ∈ ["a"; "z"] → d' !! k = None) ∧
    (∀ k, k ∉ ["a"; "z"] → d' !! k = d0 !! k) ∧
    (∀ r', r' ≠ 0 →
       heap (__call__ self0 (Some 0) ["a"; "z"] 0 st1).2 !! r'
       = heap st1 !! r').
Proof.
  split; [split; [discriminate|reflexivity]|].
  apply (C9_named_extraction_pops self0 (Some 0) ["a"; "z"] 0 st1 d0).
  - discriminate.
  - reflexivity.
Defined.

(** After [debug(variables, 'a', 'z')] the caller's mapping has lost
    ['a'] and kept ['b']. *)
Example named_call_pops :
  heap (__call__ self0 (Some 0) ["a"; "z"] 0 st1).2 !! 0 =
  Some ({[ "b" := VStr "x" ]} : gmap string pyval).
Proof. by vm_compute. Qed.

End RunFacts.

(** * Further properties *)

(** ** Strings *)

Module StringFacts.
Import PyStr.

Lemma string_app_cons (c : ascii) (s t : string) :
  String c s +:+ t = String c (s +:+ t).
Proof. reflexivity. Qed.

Lemma string_length_app (s t : string) :
  String.length (s +:+ t) = String.length s + String.length t.
Proof.
  induction s as [|c s IH]; [done|].
  rewrite string_app_cons. simpl. by rewrite IH.
Qed.

Lemma string_app_assoc (s t u : string) : (s +:+ t) +:+ u = s +:+ (t +:+ u).
Proof.
  induction s as [|c s IH]; [done|]. by rewrite !string_app_cons, IH.
Qed.

Lemma string_app_nil_r (s : string) : s +:+ EmptyString = s.
Proof.
  induction s as [|c s IH]; [done|]. by rewrite string_app_cons, IH.
Qed.

Lemma string_app_inv_tail (s1 s2 t : string) :
  s1 +:+ t = s2 +:+ t → s1 = s2.
Proof.
  revert s2. induction s1 as [|c s1 IH]; intros [|d s2] Heq.
  - done.
  - apply (f_equal String.length) in Heq.
    rewrite !string_length_app in Heq. simpl in Heq. lia.
  - apply (f_equal String.length) in Heq.
    rewrite !string_length_app in Heq. simpl in Heq. lia.
  - rewrite !string_app_cons in Heq. injection Heq as -> Heq.
    f_equal. by apply IH.
Qed.

Lemma string_length_of_list (l : list ascii) :
  String.length (string_of_list_ascii l) = length l.
Proof. induction l as [|c l IH]; simpl; [done|]. by rewrite IH. Qed.

Lemma length_repeat_char (c : ascii) (n : Z) :
  String.length (repeat_char c n) = Z.to_nat n.
Proof. unfold repeat_char. by rewrite string_length_of_list, length_replicate. Qed.

Lemma length_slice_to (n : nat) (s : string) :
  String.length (slice_to n s) = n `min` String.length s.
Proof.
  revert s. induction n as [|n IH]; intros [|c s]; simpl; try done.
  by rewrite IH.
Qed.

Lemma slice_to_short (n : nat) (s : string) :
  String.length s ≤ n → slice_to n s = s.
Proof.
  revert s. induction n as [|n IH]; intros [|c s]; simpl; try done; [lia|].
  intros Hle. rewrite IH; [done|lia].
Qed.

Lemma contains_app (c : ascii) (s t : string) :
  contains c (s +:+ t) = contains c s || contains c t.
Proof.
  induction s as [|d s IH]; [done|]. rewrite string_app_cons. cbn.
  by case_decide.
Qed.

Lemma contains_slice_to (c : ascii) (n : nat) (s : string) :
  contains c s = false → contains c (slice_to n s) = false.
Proof.
  revert s. induction n as [|n IH]; intros [|d s]; cbn; try done.
  case_decide; [done|]. apply IH.
Qed.

Lemma contains_repeat_char (c d : ascii) (n : Z) :
  d ≠ c → contains c (repeat_char d n) = false.
Proof.
  intros Hne. unfold repeat_char.
  induction (Z.to_nat n) as [|k IH]; cbn; [done|]. by rewrite decide_False.
Qed.

Lemma ljust_long (w : nat) (s : string) :
  w ≤ String.length s → ljust w s = s.
Proof.
  intros Hle. unfold ljust, repeat_char.
  replace (Z.to_nat (Z.of_nat w - Z.of_nat (String.length s))) with 0 by lia.
  apply string_app_nil_r.
Qed.

End StringFacts.

(** ** Rows and frames *)

Module LayoutFacts.
Import PyStr Renderer StringFacts.

(** The label of a row: the name cut to 29 bytes, a space, dots up to
    column 29, a space. *)
Lemma label_length (name : string) :
  String.length
    (slice_to 29 name +:+ String " " EmptyString +:+
     repeat_char "." (28 - Z.of_nat (String.length (slice_to 29 name))) +:+
     String " " EmptyString)
  = if decide (String.length name ≤ 28) then 30 else 31.
Proof.
  rewrite !string_length_app, length_repeat_char, length_slice_to.
  change (String.length (String " " EmptyString)) with 1.
  case_decide; lia.
Qed.

Lemma row_parts (name val : string) :
  row (name, val) =
    (slice_to 29 name +:+ String " " EmptyString +:+
     repeat_char "." (28 - Z.of_nat (String.length (slice_to 29 name))) +:+
     String " " EmptyString) +:+ val +:+ String nl EmptyString ∧
  String.length (row (name, val)) =
    (if decide (String.length name ≤ 28) then 30 else 31)
    + String.length val + 1.
Proof.
  assert (row (name, val) =
    (slice_to 29 name +:+ String " " EmptyString +:+
     repeat_char "." (28 - Z.of_nat (String.length (slice_to 29 name))) +:+
     String " " EmptyString) +:+ val +:+ String nl EmptyString) as Hrow.
  { unfold row. cbn [fst snd]. rewrite ljust_long; [done|].
    rewrite label_length. case_decide; lia. }
  split; [done|].
  rewrite Hrow, string_length_app, label_length, string_length_app.
  change (String.length (String nl EmptyString)) with 1. lia.
Qed.

(** X1. A row is the name cut to 29 bytes, a space, dots, a space, the value
    and a newline; [{0:30}] never pads. Values start in column 30 for
    names of up to 28 bytes, and in column 31 for longer names. *)
Theorem row_layout (name val : string) :
  row (name, val) =
    (slice_to 29 name +:+ String " " EmptyString +:+
     repeat_char "." (28 - Z.of_nat (String.length (slice_to 29 name))) +:+
     String " " EmptyString) +:+ val +:+ String nl EmptyString ∧
  String.length (slice_to 29 name) = 29 `min` String.length name ∧
  String.length (row (name, val)) =
    (if decide (String.length name ≤ 28) then 30 else 31)
    + String.length val + 1.
Proof.
  destruct (row_parts name val) as [Hrow Hlen].
  split_and!; [done|apply length_slice_to|done].
Qed.

Lemma row_not_empty (each : string * string) : row each ≠ EmptyString.
Proof.
  destruct each as [name val]. intros Hrow.
  pose proof (row_parts name val) as (_ & Hlen).
  rewrite Hrow in Hlen. cbn in Hlen. case_decide; lia.
Qed.

Lemma format_from (acc : string) (rows : list (string * string)) :
  foldl (λ out each, out +:+ row each) acc rows = acc +:+ format rows.
Proof.
  unfold format. revert acc. induction rows as [|each rows IH]; intros acc; cbn.
  - by rewrite string_app_nil_r.
  - rewrite (IH (acc +:+ row each)), (IH (EmptyString +:+ row each)).
    change (EmptyString +:+ row each) with (row each).
    by rewrite string_app_assoc.
Qed.

Lemma format_cons (each : string * string) (rows : list (string * string)) :
  format (each :: rows) = row each +:+ format rows.
Proof. unfold format at 1. cbn. apply format_from. Qed.

(** A text has a NUL byte only when a name or a value has one. *)
Lemma row_nul_free (each : string * string) :
  contains NUL each.1 = false → contains NUL each.2 = false →
  contains NUL (row each) = false.
Proof.
  destruct each as [name val]. cbn [fst snd]. intros Hname Hval.
  destruct (row_parts name val) as [-> _].
  rewrite !contains_app, Hval, (contains_slice_to _ _ _ Hname).
  by rewrite (contains_repeat_char NUL ".") by done.
Qed.

Lemma format_nul_free (rows : list (string * string)) :
  Forall (λ each, contains NUL each.1 = false ∧ contains NUL each.2 = false)
         rows →
  contains NUL (format rows) = false.
Proof.
  induction 1 as [|each rows [Hname Hval] _ IH]; [done|].
  by rewrite format_cons, contains_app, row_nul_free, IH.
Qed.

(** X2. The text of a frame is the rows of its pairs, one after the other,
    and is empty only for a snapshot without pairs: the test [if out]
    of the loop asks whether the snapshot has a pair. *)
Theorem format_rows :
  (∀ rows1 rows2, format (rows1 ++ rows2) = format rows1 +:+ format rows2) ∧
  (∀ rows, format rows = EmptyString ↔ rows = []) ∧
  (∀ rows, String.length (format rows) =
           sum_list ((λ each, String.length (row each)) <$> rows)).
Proof.
  split_and!.
  - intros rows1 rows2. induction rows1 as [|each rows1 IH]; [done|].
    cbn [app]. by rewrite !format_cons, IH, string_app_assoc.
  - intros rows. split; [|by intros ->].
    destruct rows as [|each rows]; [done|]. rewrite format_cons.
    pose proof (row_not_empty each). by destruct (row each).
  - intros rows. induction rows as [|each rows IH]; [done|].
    rewrite format_cons, string_length_app, IH. done.
Qed.

End LayoutFacts.

(** ** The unpickler reads no further than the record *)

Module FramingFacts.
Import PyStr Pickle PickleFacts.

Lemma readline_ext (s l r : list ascii) :
  readline s = (l, r) → r ≠ [] →
  s = l ++ r ∧ ∀ t, readline (l ++ t) = (l, t).
Proof.
  revert l r. induction s as [|c s IH]; intros l r; cbn.
  - by intros [= <- <-].
  - case_decide as Hc.
    + intros [= <- <-] _. split; [done|]. intros t. cbn.
      by rewrite decide_True.
    + destruct (readline s) as [l' r'] eqn:E. intros [= <- <-] Hr.
      destruct (IH l' r' eq_refl Hr) as [-> Hext]. split; [done|].
      intros t. cbn. by rewrite decide_False, Hext.
Qed.

Lemma dispatch_string (u : unpickler) (t : list ascii) :
  dispatch u (STRING :: t) =
  let '(line, s2) := readline t in
  body ← unquote (removelast line);
  str ← decode_escape body;
  Ret (Continue (push (PStr str) u) s2).
Proof. reflexivity. Qed.

Lemma dispatch_put (u : unpickler) (t : list ascii) :
  dispatch u (PUT :: t) =
  let '(line, s2) := readline t in
  match stack u with
  | v :: _ =>
    Ret (Continue
      (Unpickler (stack u)
         (<[string_of_list_ascii (removelast line) := v]> (memo u))) s2)
  | [] => Raise IndexError
  end.
Proof. reflexivity. Qed.

Lemma dispatch_get (u : unpickler) (t : list ascii) :
  dispatch u (GET :: t) =
  let '(line, s2) := readline t in
  match memo u !! string_of_list_ascii (removelast line) with
  | Some v => Ret (Continue (push v u) s2)
  | None => Raise KeyError
  end.
Proof. reflexivity. Qed.

Lemma dispatch_tuple (u : unpickler) (t : list ascii) :
  dispatch u (TUPLE :: t) =
  match pop_to_mark (stack u) with
  | Some (items, below) =>
    Ret (Continue (Unpickler (PTuple items :: below) (memo u)) t)
  | None => Raise IndexError
  end.
Proof. reflexivity. Qed.

Lemma dispatch_list (u : unpickler) (t : list ascii) :
  dispatch u (LIST :: t) =
  match pop_to_mark (stack u) with
  | Some (items, below) =>
    Ret (Continue (Unpickler (PList items :: below) (memo u)) t)
  | None => Raise IndexError
  end.
Proof. reflexivity. Qed.

Lemma dispatch_append (u : unpickler) (t : list ascii) :
  dispatch u (APPEND :: t) =
  match stack u with
  | v :: PList l :: below =>
    Ret (Continue (Unpickler (PList (l ++ [v]) :: below) (memo u)) t)
  | _ :: _ :: _ => Raise AttributeError
  | _ => Raise IndexError
  end.
Proof. reflexivity. Qed.

Lemma dispatch_stop (u : unpickler) (t : list ascii) :
  dispatch u (STOP :: t) =
  match stack u with
  | v :: _ => Ret (Stop v t)
  | [] => Raise IndexError
  end.
Proof. reflexivity. Qed.

Lemma dispatch_ext (u u' : unpickler) (s rest : list ascii) :
  dispatch u s = Ret (Continue u' rest) → rest ≠ [] →
  ∃ used, s = used ++ rest ∧
          ∀ t, dispatch u (used ++ t) = Ret (Continue u' t).
Proof.
  destruct s as [|op s]; [done|].
  intros Hd. unfold dispatch in Hd. revert Hd.
  repeat case_decide; subst.
  - intros [= <- <-] _. by exists [MARK].
  - by destruct (stack u).
  - destruct (readline s) as [l r] eqn:E.
    destruct (unquote _) as [body| |] eqn:Eu; [|done..]. cbn.
    destruct (decode_escape body) as [str| |] eqn:Ed; [|done..]. cbn.
    intros [= <- <-] Hr. destruct (readline_ext _ _ _ E Hr) as [-> Hext].
    exists (STRING :: l). split; [done|]. intros t.
    rewrite <- app_comm_cons, dispatch_string, Hext, Eu. cbn. by rewrite Ed.
  - destruct (readline s) as [l r] eqn:E.
    destruct (stack u) as [|v st] eqn:Est; [done|].
    intros [= <- <-] Hr. destruct (readline_ext _ _ _ E Hr) as [-> Hext].
    exists (PUT :: l). split; [done|]. intros t.
    by rewrite <- app_comm_cons, dispatch_put, Hext, Est.
  - destruct (readline s) as [l r] eqn:E.
    destruct (memo u !! _) as [v|] eqn:Em; [|done].
    intros [= <- <-] Hr. destruct (readline_ext _ _ _ E Hr) as [-> Hext].
    exists (GET :: l). split; [done|]. intros t.
    by rewrite <- app_comm_cons, dispatch_get, Hext, Em.
  - destruct (pop_to_mark _) as [[items below]|] eqn:Em; [|done].
    intros [= <- <-] _. exists [TUPLE]. split; [done|]. intros t.
    cbn [app]. by rewrite dispatch_tuple, Em.
  - destruct (pop_to_mark _) as [[items below]|] eqn:Em; [|done].
    intros [= <- <-] _. exists [LIST]. split; [done|]. intros t.
    cbn [app]. by rewrite dispatch_list, Em.
  - destruct (stack u) as [|v [|[| | |l] below]] eqn:Est; try done.
    intros [= <- <-] _. exists [APPEND]. split; [done|]. intros t.
    cbn [app]. by rewrite dispatch_append, Est.
  - done.
Qed.

Lemma dispatch_stop_ext (u : unpickler) (v : pyobj) (s rest : list ascii) :
  dispatch u s = Ret (Stop v rest) →
  s = STOP :: rest ∧ ∀ t, dispatch u (STOP :: t) = Ret (Stop v t).
Proof.
  destruct s as [|op s]; [done|].
  intros Hd. unfold dispatch in Hd. revert Hd.
  repeat case_decide; subst.
  - done.
  - destruct (stack u) as [|v' st] eqn:Est; [done|].
    intros [= <- <-]. split; [done|]. intros t.
    by rewrite dispatch_stop, Est.
  - destruct (readline s) as [l r].
    destruct (unquote _) as [body| |]; [|done..]. cbn.
    destruct (decode_escape body); done.
  - destruct (readline s) as [l r]. destruct (stack u); done.
  - destruct (readline s) as [l r]. destruct (memo u !! _); done.
  - destruct (pop_to_mark _) as [[??]|]; done.
  - destruct (pop_to_mark _) as [[??]|]; done.
  - destruct (stack u) as [|? [|[] ?]]; done.
  - done.
Qed.

(** What [load] returns depends only on the bytes it read: the same
    record followed by other bytes gives the same object. *)
Lemma load_from_ext (n : nat) : ∀ (u : unpickler) (s rest : list ascii) (v : pyobj),
  length s ≤ n →
  load_from u s = Ret (v, rest) →
  ∃ used, s = used ++ rest ∧ ∀ t, load_from u (used ++ t) = Ret (v, t).
Proof.
  induction n as [|n IH]; intros u s rest v Hn; rewrite load_from_unfold.
  - destruct s; [done|cbn in Hn; lia].
  - destruct (dispatch u s) as [[u' r1|v' r1]| |] eqn:E; try done.
    + intros Hl. destruct (decide (r1 = [])) as [-> | Hr1].
      { by rewrite load_from_unfold in Hl. }
      pose proof (dispatch_shrinks _ _ _ _ E) as Hlt.
      destruct (dispatch_ext _ _ _ _ E Hr1) as (used1 & -> & Hext1).
      destruct (IH u' r1 rest v ltac:(lia) Hl) as (used2 & -> & Hext2).
      exists (used1 ++ used2). split; [by rewrite app_assoc|].
      intros t. by rewrite load_from_unfold, <- app_assoc, Hext1, Hext2.
    + intros [= <- <-].
      destruct (dispatch_stop_ext _ _ _ _ E) as [-> Hext].
      exists [STOP]. split; [done|]. intros t.
      by rewrite load_from_unfold; cbn [app]; rewrite Hext.
Qed.

(** A record cut short is never taken for a record: [load] on a proper
    prefix of a pickled snapshot raises. *)
Lemma load_truncated (mp : memo_policy) (l : list (string * string))
    (p q : list ascii) :
  p ++ q = dumps_with mp l → q ≠ [] → ∃ e, load p = Raise e.
Proof.
  intros Hpq Hq. destruct (load p) as [[v rest]|e|] eqn:E.
  - destruct (load_from_ext (length p) _ _ _ _ (le_n _) E) as (used & -> & Hext).
    specialize (Hext (rest ++ q)). fold (load (used ++ rest ++ q)) in Hext.
    rewrite app_assoc, Hpq in Hext.
    rewrite <- (app_nil_r (dumps_with mp l)), load_dumps_with in Hext.
    injection Hext as _ Hnil. symmetry in Hnil.
    apply app_eq_nil in Hnil as [_ ->]. done.
  - eauto.
  - by apply RendererFacts.load_no_block in E.
Qed.

End FramingFacts.

(** ** The loop of the consumer on whole streams *)

Module LoopFacts.
Import Renderer RendererFacts LayoutFacts.

Lemma main_go_fuel (f1 f2 : nat) (r : rstate) (sin : list ascii) :
  length sin < f1 → length sin < f2 → main_go f1 r sin = main_go f2 r sin.
Proof.
  revert f2 r sin. induction f1 as [|f1 IH]; intros [|f2] r sin ??; try lia.
  cbn [main_go]. destruct (turn (r, sin)) as [res [r' s']] eqn:E.
  apply turn_cases in E as [_ Hlt].
  destruct res as [[]|e|]; [|done..]. apply IH; specialize (Hlt eq_refl); lia.
Qed.

Lemma main_unfold (r : rstate) (sin : list ascii) :
  main r sin =
  match turn (r, sin) with
  | (Ret _, (r', sin')) => main r' sin'
  | (Raise e, (r', _)) => Some (e, r')
  | (Block, _) => None
  end.
Proof.
  unfold main at 1. cbn [main_go].
  destruct (turn (r, sin)) as [res [r' s']] eqn:E.
  apply turn_cases in E as [_ Hlt].
  destruct res as [[]|e|]; [|done..].
  unfold main. apply main_go_fuel; specialize (Hlt eq_refl); lia.
Qed.

(** When the window has room for the marker, a turn on a decoded
    snapshot whose text has no NUL byte returns; it keeps what the
    window accepts, and [outprev] becomes the new text unless that is
    empty. *)
Lemma render_returns (rows : list (string * string)) (r : rstate) :
  fits r too_long = true →
  PyStr.contains PyStr.NUL (format rows) = false →
  (render rows r).1 = Ret () ∧
  fits (render rows r).2 = fits r ∧
  outprev (render rows r).2 =
    (if decide (format rows = EmptyString) then outprev r else format rows).
Proof.
  intros Hfit Hnul. unfold render.
  destruct (decide (format rows ≠ EmptyString ∧ format rows ≠ outprev r))
    as [[H1 H2]|Hno].
  - rewrite repaint_new by done. rewrite Hfit, Hnul.
    rewrite (decide_False (P := format rows = EmptyString)) by done.
    by destruct (fits r (format rows)).
  - rewrite repaint_same by done. cbn. split_and!; [done..|].
    case_decide; [done|]. destruct (decide (format rows = outprev r)); [done|].
    destruct Hno. done.
Qed.

Lemma main_nil (r : rstate) : main r [] = Some (EOFError, r).
Proof. by rewrite main_unfold. Qed.

Lemma main_whole_records
    (recs : list (Pickle.memo_policy * list (string * string))) (r : rstate) :
  fits r too_long = true →
  Forall (λ rec, PyStr.contains PyStr.NUL (format rec.2) = false) recs →
  main r (concat ((λ rec, Pickle.dumps_with rec.1 rec.2) <$> recs)) =
    Some (EOFError, foldl (λ r rows, (render rows r).2) r recs.*2) ∧
  outprev (foldl (λ r rows, (render rows r).2) r recs.*2)
    = foldl (λ prev rows,
               if decide (format rows = EmptyString) then prev
               else format rows)
            (outprev r) recs.*2.
Proof.
  intros Hfit Hnul. revert r Hfit.
  induction Hnul as [|[mp rows] recs Hrows _ IH]; intros r Hfit.
  - split; [|done]. apply main_nil.
  - cbn [fmap list_fmap concat fst snd foldl].
    destruct (render_returns rows r Hfit Hrows) as (Hret & Hfits & Hout).
    rewrite main_unfold, WireFacts.turn_dumps, Hret.
    destruct (IH (render rows r).2) as [-> ->]; [by rewrite Hfits|].
    by rewrite Hout.
Qed.

(** An interrupted loop on whole records ends by [KeyboardInterrupt], or
    by [EOFError] when the stream ended first. *)
Lemma main_until_whole_records (n : nat)
    (recs : list (Pickle.memo_policy * list (string * string))) (r : rstate) :
  fits r too_long = true →
  Forall (λ rec, PyStr.contains PyStr.NUL (format rec.2) = false) recs →
  ∃ e r',
    main_until n r (concat ((λ rec, Pickle.dumps_with rec.1 rec.2) <$> recs))
      = Some (e, r') ∧
    (e = EOFError ∨ e = KeyboardInterrupt).
Proof.
  intros Hfit Hnul. revert n r Hfit.
  induction Hnul as [|[mp rows] recs Hrows _ IH]; intros [|n] r Hfit;
    cbn [main_until]; eauto.
  cbn [fmap list_fmap concat fst snd].
  destruct (render_returns rows r Hfit Hrows) as (Hret & Hfits & _).
  rewrite WireFacts.turn_dumps, Hret. apply IH. by rewrite Hfits.
Qed.

Lemma main_until_total (n : nat) (r : rstate) (sin : list ascii) :
  is_Some (main_until n r sin).
Proof.
  revert r sin. induction n as [|n IH]; intros r sin; cbn [main_until]; [done|].
  destruct (turn (r, sin)) as [res [r' s']] eqn:E.
  apply turn_cases in E as [Hnb _].
  destruct res as [[]|e|]; [apply IH|done..].
Qed.

Lemma records_nul_free
    (recs : list (Pickle.memo_policy * list (string * string))) :
  Forall (λ rec,
            Forall (λ each, PyStr.contains PyStr.NUL each.1 = false ∧
                            PyStr.contains PyStr.NUL each.2 = false) rec.2)
         recs →
  Forall (λ rec, PyStr.contains PyStr.NUL (format rec.2) = false) recs.
Proof.
  intros Hnul. eapply Forall_impl; [exact Hnul|].
  intros rec. apply format_nul_free.
Qed.

(** X3. On a stream of whole records whose names and values have no NUL
    byte, in a window that accepts the marker, the loop renders the
    records one by one in the order of the stream and ends by
    [EOFError]; then [outprev] is the text of the last snapshot that had
    a pair (or what it was, if none had). *)
Theorem main_renders_in_order
    (recs : list (Pickle.memo_policy * list (string * string))) (r : rstate) :
  fits r too_long = true →
  Forall (λ rec,
            Forall (λ each, PyStr.contains PyStr.NUL each.1 = false ∧
                            PyStr.contains PyStr.NUL each.2 = false) rec.2)
         recs →
  main r (concat ((λ rec, Pickle.dumps_with rec.1 rec.2) <$> recs)) =
    Some (EOFError, foldl (λ r rows, (render rows r).2) r recs.*2) ∧
  outprev (foldl (λ r rows, (render rows r).2) r recs.*2)
    = foldl (λ prev rows,
               if decide (format rows = EmptyString) then prev
               else format rows)
            (outprev r) recs.*2.
Proof.
  intros Hfit Hnul. apply main_whole_records; [done|].
  by apply records_nul_free.
Qed.

(** X4. A record whose text is new and is refused by [addstr]: when the
    text has a NUL byte the loop ends by [TypeError] with the window
    cleared; otherwise the window is cleared and shows the marker, the
    text becomes [outprev] and the turn returns with the rest of the
    stream unread, unless the marker is refused as well, which ends the
    loop by [curses.error] with the window cleared. *)
Theorem main_refused_text (mp : Pickle.memo_policy)
    (rows : list (string * string)) (r : rstate) (rest : list ascii) :
  format rows ≠ EmptyString → format rows ≠ outprev r →
  fits r (format rows) = false →
  (PyStr.contains PyStr.NUL (format rows) = true →
   main r (Pickle.dumps_with mp rows ++ rest)
   = Some (TypeError, RState (outprev r) (ops r ++ [Clear]) (fits r))) ∧
  (PyStr.contains PyStr.NUL (format rows) = false →
   fits r too_long = true →
   turn (r, Pickle.dumps_with mp rows ++ rest)
   = (Ret (),
      (RState (format rows) (ops r ++ [Clear; AddStr too_long; Refresh])
              (fits r),
       rest))) ∧
  (PyStr.contains PyStr.NUL (format rows) = false →
   fits r too_long = false →
   main r (Pickle.dumps_with mp rows ++ rest)
   = Some (CursesError, RState (outprev r) (ops r ++ [Clear]) (fits r))).
Proof.
  intros H1 H2 Hno.
  rewrite main_unfold, WireFacts.turn_dumps. unfold render.
  rewrite repaint_new, Hno by done.
  split_and!; [intros ->|intros -> ->|intros -> ->]; done.
Qed.

Lemma main_truncated_lemma (mp : Pickle.memo_policy)
    (rows : list (string * string)) (p q : list ascii) (r : rstate) :
  p ++ q = Pickle.dumps_with mp rows → q ≠ [] →
  ∃ e, main r p = Some (e, r).
Proof.
  intros Hpq Hq.
  destruct (FramingFacts.load_truncated mp rows p q Hpq Hq) as [e He].
  exists e. rewrite main_unfold. unfold turn, decode. by rewrite He.
Qed.

(** X5. When the write side is closed in the middle of a record, the loop
    ends by an exception and leaves the window as it was. *)
Theorem main_truncated_record (mp : Pickle.memo_policy)
    (rows : list (string * string)) (p q : list ascii) (r : rstate) :
  p ++ q = Pickle.dumps_with mp rows → q ≠ [] →
  ∃ e, main r p = Some (e, r).
Proof. apply main_truncated_lemma. Qed.

End LoopFacts.

(** ** The consumer process *)

Module XtermWinFacts.
Import Renderer RendererFacts LoopFacts XtermWin.

(** [curses.wrapper(main)] only ends by an exception, and leaves the
    process as it was. *)
Lemma wrapper_raises (r : rstate) (sin : list ascii) (s : cstate) :
  ∃ e, wrapper r sin s = (Raise e, s).
Proof.
  unfold wrapper, bind_, setup, loop.
  destruct (term_ok s); [|by eexists].
  destruct (sigint s) as [n|].
  - destruct (main_until_total n (RState EmptyString (ops r) (fits r)) sin)
      as [[e r'] ->]. by eexists.
  - destruct (main_total (RState EmptyString (ops r) (fits r)) sin)
      as [[e r'] ->]. by eexists.
Qed.

Lemma wrapper_whole_records (r : rstate) (s : cstate)
    (recs : list (Pickle.memo_policy * list (string * string))) :
  term_ok s = true → fits r too_long = true →
  Forall (λ rec, PyStr.contains PyStr.NUL (format rec.2) = false) recs →
  ∃ e,
    wrapper r (concat ((λ rec, Pickle.dumps_with rec.1 rec.2) <$> recs)) s
      = (Raise e, s) ∧
    (e = EOFError ∨ e = KeyboardInterrupt).
Proof.
  intros Hterm Hfit Hnul. unfold wrapper, bind_, setup, loop. rewrite Hterm.
  destruct (sigint s) as [n|].
  - destruct (main_until_whole_records n recs
                (RState EmptyString (ops r) (fits r)) Hfit Hnul)
      as (e & r' & -> & He). eauto.
  - destruct (main_whole_records recs
                (RState EmptyString (ops r) (fits r)) Hfit Hnul) as [-> _].
    eauto.
Qed.

Lemma xterm_win_unfold (argv2 : string) (r : rstate) (sin : list ascii)
    (e : exn) (s : cstate) :
  wrapper r sin s = (Raise e, s) →
  _xterm_win argv2 r sin s =
  match OS.remove (pipe_of argv2) (cos s) with
  | (Ret _, w) =>
    if decide (e = EOFError ∨ e = KeyboardInterrupt)
    then (Ret (),
          CState w (stdout s ++ ["Exited! Please close this window..."%string])
                 (term_ok s) (sigint s))
    else (Raise e, CState w (stdout s) (term_ok s) (sigint s))
  | (Raise e', w) => (Raise e', CState w (stdout s) (term_ok s) (sigint s))
  | (Block, w) => (Block, CState w (stdout s) (term_ok s) (sigint s))
  end.
Proof.
  intros Hw. unfold _xterm_win, bind_, finally_, try_, os_remove.
  rewrite Hw. unfold ret_. cbn.
  destruct (decide (e = EOFError)) as [-> | Hne1]; cbn;
    [|destruct (decide (e = KeyboardInterrupt)) as [-> | Hne2]; cbn];
    destruct (OS.remove (pipe_of argv2) (cos s)) as [[[]|e'|] w];
    repeat case_decide; try done; naive_solver.
Qed.

(** X6. When the pipe's name can be removed: on a stream of whole records
    whose names and values have no NUL byte, on a terminal that does
    what curses asks and in a window that accepts the marker, the
    consumer removes the name, prints its last line and returns, whether
    the stream ended or the user interrupted the loop. On whole records
    followed by a record cut short, and whatever the terminal and the
    window do, the consumer removes the name as well; it then either
    returns with its last line printed, or raises with nothing
    printed. *)
Theorem xterm_win_removes_pipe (argv2 : string) (r : rstate) (s : cstate)
    (n : OS.node) :
  OS.dir_writable (cos s) = true →
  OS.fs (cos s) !! pipe_of argv2 = Some n → n ≠ OS.Directory →
  (∀ recs : list (Pickle.memo_policy * list (string * string)),
     term_ok s = true → fits r too_long = true →
     Forall (λ rec,
               Forall (λ each, PyStr.contains PyStr.NUL each.1 = false ∧
                               PyStr.contains PyStr.NUL each.2 = false) rec.2)
            recs →
     _xterm_win argv2 r
       (concat ((λ rec, Pickle.dumps_with rec.1 rec.2) <$> recs)) s
     = (Ret (),
        CState (OS.set_fs (delete (pipe_of argv2) (OS.fs (cos s))) (cos s))
               (stdout s ++ ["Exited! Please close this window..."%string])
               (term_ok s) (sigint s))) ∧
  (∀ (recs : list (Pickle.memo_policy * list (string * string)))
     (mp : Pickle.memo_policy) (rows : list (string * string))
     (p q : list ascii),
     p ++ q = Pickle.dumps_with mp rows →
     OS.fs (cos (_xterm_win argv2 r
                   (concat ((λ rec, Pickle.dumps_with rec.1 rec.2) <$> recs)
                    ++ p) s).2) !! pipe_of argv2 = None ∧
     (((_xterm_win argv2 r
          (concat ((λ rec, Pickle.dumps_with rec.1 rec.2) <$> recs) ++ p)
          s).1 = Ret () ∧
       stdout (_xterm_win argv2 r
                 (concat ((λ rec, Pickle.dumps_with rec.1 rec.2) <$> recs)
                  ++ p) s).2
         = stdout s ++ ["Exited! Please close this window..."%string]) ∨
      ((∃ e, (_xterm_win argv2 r
                (concat ((λ rec, Pickle.dumps_with rec.1 rec.2) <$> recs)
                 ++ p) s).1 = Raise e) ∧
       stdout (_xterm_win argv2 r
                 (concat ((λ rec, Pickle.dumps_with rec.1 rec.2) <$> recs)
                  ++ p) s).2
         = stdout s))).
Proof.
  intros Hw Hn Hdir.
  assert (OS.remove (pipe_of argv2) (cos s) =
          (Ret (), OS.set_fs (delete (pipe_of argv2) (OS.fs (cos s))) (cos s)))
    as Hrm.
  { unfold OS.remove. rewrite Hn, Hw. by destruct n. }
  split.
  - intros recs Hterm Hfit Hnul.
    destruct (wrapper_whole_records r s recs Hterm Hfit
                (records_nul_free recs Hnul)) as (e & Hwr & He).
    rewrite (xterm_win_unfold _ _ _ _ _ Hwr), Hrm. by rewrite decide_True.
  - intros recs mp rows p q _.
    destruct (wrapper_raises r
                (concat ((λ rec, Pickle.dumps_with rec.1 rec.2) <$> recs) ++ p)
                s) as [e Hwr].
    rewrite (xterm_win_unfold _ _ _ _ _ Hwr), Hrm.
    case_decide; cbn; (split; [by rewrite lookup_delete_eq|]); eauto.
Qed.


End XtermWinFacts.

(** ** More on the producer *)

Module ChannelFacts.
Import XTBug OrderFacts ProducerFacts StringFacts.

Lemma pipe_name_inj (n m : nat) : _PIPE n = _PIPE m → n = m.
Proof.
  unfold _PIPE. intros Heq.
  apply (inj (String.append "/tmp/xtbug")) in Heq.
  apply string_app_inv_tail in Heq. by apply (inj pretty) in Heq.
Qed.

(** X8. Channel numbers name pipes one to one, and the consumer started with
    [str(n)] as its argument opens the pipe of channel [n] and no other. *)
Theorem pipe_names_distinct (n m : nat) :
  (_PIPE n = _PIPE m ↔ n = m) ∧
  (XtermWin.pipe_of (pretty n) = _PIPE m ↔ n = m).
Proof.
  split; (split; [apply pipe_name_inj|by intros ->]).
Qed.

Section channels.
Context `{Countable K} {V : Type} `{!StrOf K} `{!PFormat V}.
Implicit Types (st : pstate (K:=K) (V:=V)) (d : gmap K V) (args : list K).

Lemma init_returns st (a : xtbug) st1 :
  __init__ st = (Ret a, st1) →
  a = Instance_ (_count st) (_PIPE (_count st)) (length (OS.procs (os st)))
                (fresh (dom (OS.fds (os st)))) ∧
  st1 =
    PState
      (OS.World true
         (<[_PIPE (_count st) := OS.Fifo (OS.next_ino (os st))]> (OS.fs (os st)))
         (<[OS.next_ino (os st) := OS.Pipe [] (OS.new_cap (os st))]>
            (OS.pipes (os st)))
         (<[fresh (dom (OS.fds (os st))) := OS.OPipe (OS.next_ino (os st)) true]>
            (OS.fds (os st)))
         (S (OS.next_ino (os st))) (OS.new_cap (os st))
         (OS.page_room (os st)) (OS.can_open (os st)) (OS.can_launch (os st))
         (OS.procs (os st) ++
          [options "white" "blue" 120 60 true (_PIPE (_count st)) (_count st)]))
      (_pickle st) (S (_count st)) (heap st).
Proof.
  rewrite init_unfold. cbv zeta. repeat case_match; try done.
  by intros [= <- <-].
Qed.

(** X9. Making an instance always uses up one channel number and never
    touches the mappings, names other than the channel's, descriptors
    that are open, or pipes that exist. A construction that raises
    raises [OSError] and has opened no descriptor; it leaves the whole
    operating system as it was when the pipe could not be made, and
    leaves the pipe it made behind otherwise (the xterm could not be
    launched, or the pipe not opened). *)
Theorem init_frame st :
  _count (__init__ st).2 = S (_count st) ∧
  heap (__init__ st).2 = heap st ∧
  (∀ path, path ≠ _PIPE (_count st) →
     OS.fs (os (__init__ st).2) !! path = OS.fs (os st) !! path) ∧
  (∀ fd, is_Some (OS.fds (os st) !! fd) →
     OS.fds (os (__init__ st).2) !! fd = OS.fds (os st) !! fd) ∧
  (∀ ino, ino ≠ OS.next_ino (os st) →
     OS.pipes (os (__init__ st).2) !! ino = OS.pipes (os st) !! ino) ∧
  (∀ e, (__init__ st).1 = Raise e →
     e = OSError ∧
     OS.fds (os (__init__ st).2) = OS.fds (os st) ∧
     (¬ (OS.dir_writable (os st) = true ∧
         OS.fs (os st) !! _PIPE (_count st) ≠ Some OS.Directory) →
      os (__init__ st).2 = os st) ∧
     (OS.dir_writable (os st) = true ∧
      OS.fs (os st) !! _PIPE (_count st) ≠ Some OS.Directory →
      OS.fs (os (__init__ st).2) !! _PIPE (_count st)
        = Some (OS.Fifo (OS.next_ino (os st))))).
Proof.
  rewrite init_unfold. cbv zeta.
  assert (∀ fd, is_Some (OS.fds (os st) !! fd) →
                fd ≠ fresh (dom (OS.fds (os st)))) as Hfresh.
  { intros fd Hfd ->. apply elem_of_dom in Hfd. by apply is_fresh in Hfd. }
  repeat case_match; cbn; (split_and!; [done|done|..]).
  all: try (intros path Hne; by rewrite ?lookup_insert_ne).
  all: try (intros fd Hfd; try done; rewrite lookup_insert_ne; [done|];
            intros Heq; by apply (Hfresh fd)).
  all: try (intros e [= <-]; split_and!; try done;
            intros _; cbn; by rewrite lookup_insert_eq).
Qed.

(** X10. Two instances made one after the other are separate channels:
    consecutive numbers, different pipe names, different descriptors on
    different pipes; making the second leaves the first one's name,
    descriptor and pipe as they were. *)
Theorem two_instances_independent st (a b : xtbug) st1 st2 :
  __init__ st = (Ret a, st1) →
  __init__ st1 = (Ret b, st2) →
  _mycount b = S (_mycount a) ∧
  _pipe a ≠ _pipe b ∧
  sout a ≠ sout b ∧
  ∃ ia ib,
    ia ≠ ib ∧
    OS.fs (os st2) !! _pipe a = Some (OS.Fifo ia) ∧
    OS.fs (os st2) !! _pipe b = Some (OS.Fifo ib) ∧
    OS.fds (os st2) !! sout a = Some (OS.OPipe ia true) ∧
    OS.fds (os st2) !! sout b = Some (OS.OPipe ib true) ∧
    OS.pipes (os st2) !! ia = OS.pipes (os st1) !! ia.
Proof.
  intros [-> ->]%init_returns [-> ->]%init_returns. cbn.
  assert (_PIPE (_count st) ≠ _PIPE (S (_count st))) as Hpath.
  { intros Heq. apply pipe_name_inj in Heq. lia. }
  assert (fresh (dom (OS.fds (os st))) ≠
          fresh (dom (<[fresh (dom (OS.fds (os st))) :=
                          OS.OPipe (OS.next_ino (os st)) true]>
                        (OS.fds (os st))))) as Hfd.
  { intros Heq.
    pose proof (is_fresh (dom (<[fresh (dom (OS.fds (os st))) :=
                                  OS.OPipe (OS.next_ino (os st)) true]>
                                (OS.fds (os st))))) as Hnew.
    rewrite <- Heq in Hnew. apply Hnew, elem_of_dom.
    by rewrite lookup_insert_eq. }
  split_and!; [done..|].
  exists (OS.next_ino (os st)), (S (OS.next_ino (os st))).
  split_and!.
  - lia.
  - by rewrite lookup_insert_ne, lookup_insert_eq.
  - by rewrite lookup_insert_eq.
  - by rewrite lookup_insert_ne, lookup_insert_eq.
  - by rewrite lookup_insert_eq.
  - rewrite lookup_insert_ne; [done|lia].
Qed.

End channels.
End ChannelFacts.

(** ** More on submissions *)

Module SubmitFacts.
Import XTBug XTBugRecord OrderFacts ProducerFacts.

Lemma write_frame (fd : nat) (data : list ascii) (w : OS.world) :
  OS.fs (OS.write fd data w).2 = OS.fs w ∧
  OS.fds (OS.write fd data w).2 = OS.fds w ∧
  OS.dir_writable (OS.write fd data w).2 = OS.dir_writable w.
Proof. unfold OS.write. by repeat (case_match || case_decide). Qed.

Lemma write_fits (fd ino : nat) (b : bool) (p : OS.pipe) (data : list ascii)
    (w : OS.world) :
  OS.fds w !! fd = Some (OS.OPipe ino b) →
  OS.pipes w !! ino = Some p →
  length data ≤ OS.room w ino p (length data) →
  OS.write fd data w =
  (Ret (length data),
   OS.set_pipe ino (OS.Pipe (OS.buf p ++ data) (OS.cap p)) w).
Proof.
  intros Hfd Hp Hfit. unfold OS.write. by rewrite Hfd, Hp, decide_True.
Qed.

Section submit.
Context `{Countable K} {V : Type} `{!StrOf K} `{!PFormat V}.
Implicit Types (st : pstate (K:=K) (V:=V)) (d : gmap K V) (args : list K).

Lemma record_eq st d args :
  record st d args =
  Pickle.dumps_with (_pickle st) (snapshot (map_to_list (pickled d args))).
Proof. reflexivity. Qed.

Lemma extract_frame r args : ∀ (dic : gmap K V) st res st',
  extract r args dic st = (res, st') →
  os st' = os st ∧ _count st' = _count st ∧ _pickle st' = _pickle st ∧
  ∀ r', r' ≠ r → heap st' !! r' = heap st !! r'.
Proof.
  induction args as [|each args IH]; intros dic st res st'.
  { by intros [= <- <-]. }
  cbn [extract]. unfold bind_ at 1. unfold try_, bind_ at 1, dict_pop.
  destruct (heap st !! r) as [d|] eqn:Hr.
  - destruct (d !! each) as [v|] eqn:Hd.
    + cbn. intros (-> & -> & -> & Hheap)%IH. cbn.
      split_and!; [done..|]. intros r' Hne. rewrite Hheap by done.
      cbn. by rewrite lookup_insert_ne.
    + rewrite decide_True by done. apply IH.
  - rewrite decide_False by done. by intros [= <- <-].
Qed.

Lemma submit_frame (self : xtbug) (items : list (K * V)) st res st' :
  submit self items st = (res, st') →
  _count st' = _count st ∧ OS.fs (os st') = OS.fs (os st) ∧
  OS.fds (os st') = OS.fds (os st) ∧ heap st' = heap st.
Proof.
  rewrite submit_unfold.
  pose proof (write_frame (sout self)
    (Pickle.dumps_with (_pickle st) (snapshot items)) (os st))
    as (Hfs & Hfds & _).
  destruct (OS.write _ _ _) as [[n|e|] w]; cbn in *.
  - by intros [= <- <-].
  - by destruct e; intros [= <- <-].
  - by intros [= <- <-].
Qed.

Lemma call_frame_rel (self : xtbug) variables args f_back st res st' :
  __call__ self variables args f_back st = (res, st') →
  _count st' = _count st ∧ OS.fs (os st') = OS.fs (os st) ∧
  OS.fds (os st') = OS.fds (os st) ∧
  (∀ r', r' ≠ default f_back variables → heap st' !! r' = heap st !! r') ∧
  (args = [] → heap st' = heap st).
Proof.
  unfold __call__, bind_ at 1. destruct args as [|each args].
  - unfold dict_items. destruct (heap st !! _) as [d|].
    + intros (-> & -> & -> & ->)%submit_frame. done.
    + by intros [= <- <-].
  - unfold bind_ at 1.
    destruct (extract _ _ _ _) as [res1 st1] eqn:E.
    apply extract_frame in E as (Hos & Hc & _ & Hheap).
    destruct res1 as [dic|e|]; cbn.
    + intros (-> & -> & -> & ->)%submit_frame.
      rewrite Hos, Hc. split_and!; [done..|apply Hheap|done].
    + intros [= <- <-]. rewrite Hos, Hc.
      split_and!; [done..|apply Hheap|done].
    + intros [= <- <-]. rewrite Hos, Hc.
      split_and!; [done..|apply Hheap|done].
Qed.

(** X11. A call never makes, removes or renames a file, never opens or closes
    a descriptor and never changes [XTBug._count]; it changes no mapping
    but the one it was given, and without names not even that one. *)
Theorem call_frame (self : xtbug) variables args f_back st :
  _count (__call__ self variables args f_back st).2 = _count st ∧
  OS.fs (os (__call__ self variables args f_back st).2) = OS.fs (os st) ∧
  OS.fds (os (__call__ self variables args f_back st).2) = OS.fds (os st) ∧
  (∀ r', r' ≠ default f_back variables →
     heap (__call__ self variables args f_back st).2 !! r' = heap st !! r') ∧
  (args = [] → heap (__call__ self variables args f_back st).2 = heap st).
Proof.
  destruct (__call__ self variables args f_back st) as [res st'] eqn:E.
  by apply call_frame_rel in E.
Qed.

Lemma call_fits (self : xtbug) variables args f_back st d ino b p :
  heap st !! default f_back variables = Some d →
  OS.fds (os st) !! sout self = Some (OS.OPipe ino b) →
  OS.pipes (os st) !! ino = Some p →
  length (record st d args)
    ≤ OS.room (os st) ino p (length (record st d args)) →
  __call__ self variables args f_back st =
  (Ret (),
   PState
     (OS.set_pipe ino (OS.Pipe (OS.buf p ++ record st d args) (OS.cap p)) (os st))
     (_pickle st) (_count st)
     (<[default f_back variables := filter (λ kv, kv.1 ∉ args) d]> (heap st))).
Proof.
  intros Hr Hfd Hp Hfit. unfold record in *.
  rewrite (call_unfold _ _ _ _ _ d Hr), submit_unfold.
  unfold set_heap. cbn [os _pickle].
  by rewrite (write_fits _ _ _ _ _ _ Hfd Hp Hfit).
Qed.

(** X12. A call whose record the pipe has room for (as the kernel counts
    it) returns and delivers the record whole, behind what the pipe
    held, on a blocking descriptor as well; it touches no other pipe,
    and the consumer decodes the record to the snapshot of the call with
    nothing left over. *)
Theorem call_delivers_whole (self : xtbug) variables args f_back st d ino b p :
  heap st !! default f_back variables = Some d →
  OS.fds (os st) !! sout self = Some (OS.OPipe ino b) →
  OS.pipes (os st) !! ino = Some p →
  length (record st d args)
    ≤ OS.room (os st) ino p (length (record st d args)) →
  (__call__ self variables args f_back st).1 = Ret () ∧
  OS.pending (sout self) (os (__call__ self variables args f_back st).2)
    = Some (OS.buf p ++ record st d args) ∧
  (∀ ino', ino' ≠ ino →
     OS.pipes (os (__call__ self variables args f_back st).2) !! ino'
     = OS.pipes (os st) !! ino') ∧
  Renderer.decode (record st d args)
    = Ret (snapshot (map_to_list (pickled d args)), []).
Proof.
  intros Hr Hfd Hp Hfit.
  rewrite (call_fits _ _ _ _ _ _ _ _ _ Hr Hfd Hp Hfit). cbn.
  split_and!.
  - done.
  - unfold OS.pending. cbn. by rewrite Hfd, lookup_insert_eq.
  - intros ino' Hne. by rewrite lookup_insert_ne.
  - unfold record. rewrite <- (app_nil_r (Pickle.dumps_with _ _)).
    apply WireFacts.decode_dumps_with.
Qed.


(** X14. Once [__del__] has closed the descriptor, a call is ignored: it
    returns, and the operating system is as [__del__] left it. *)
Theorem call_after_del_ignored (self : xtbug) variables args f_back st d :
  is_Some (OS.fds (os st) !! sout self) →
  heap st !! default f_back variables = Some d →
  (__del__ self st).1 = Ret () ∧
  (__call__ self variables args f_back (__del__ self st).2).1 = Ret () ∧
  os (__call__ self variables args f_back (__del__ self st).2).2
    = os (__del__ self st).2.
Proof.
  intros [o Ho] Hr. unfold __del__, lift_os, OS.close. rewrite Ho. cbn.
  split; [done|]. set (st1 := set_os _ st).
  assert (heap st1 !! default f_back variables = Some d) as Hr1 by done.
  rewrite (call_unfold _ _ _ _ _ d Hr1), submit_unfold.
  unfold set_heap. cbn [os _pickle]. unfold OS.write.
  subst st1. cbn. by rewrite lookup_delete_eq.
Qed.

End submit.
End SubmitFacts.

(** ** More on snapshots and names *)

Module SnapshotFacts.
Import XTBug OrderFacts ProducerFacts.

Section snapshots.
Context `{Countable K} {V : Type} `{!StrOf K} `{!PFormat V}.
Implicit Types (st : pstate (K:=K) (V:=V)) (d : gmap K V) (args : list K).

(** X15. The pickled list does not depend on the order in which the dict
    yields its items; it has one pair per item and is sorted by
    (name, value). *)
Theorem snapshot_canonical (items1 items2 : list (K * V)) :
  items1 ≡ₚ items2 →
  snapshot items1 = snapshot items2 ∧
  length (snapshot items1) = length items1 ∧
  StronglySorted tuple_le (snapshot items1).
Proof.
  intros Hp. split_and!.
  - unfold snapshot. apply sorted_unique. by rewrite Hp.
  - by rewrite snapshot_perm, length_fmap.
  - apply sorted_tuple_le.
Qed.

Lemma filter_names_ext d args1 args2 :
  (∀ k, k ∈ args1 ↔ k ∈ args2) →
  filter (λ kv, kv.1 ∈ args1) d = filter (λ kv, kv.1 ∈ args2) d ∧
  filter (λ kv, kv.1 ∉ args1) d = filter (λ kv, kv.1 ∉ args2) d.
Proof.
  intros Hset. split; apply map_eq; intros k.
  - rewrite !lookup_requested. repeat case_decide; try done; naive_solver.
  - rewrite !lookup_not_requested. repeat case_decide; try done; naive_solver.
Qed.

(** X16. Only the set of the requested names counts: naming one twice (the
    second [pop] raises [KeyError], which is dropped) or in another order
    gives the same call. *)
Theorem names_as_a_set (self : xtbug) variables args1 args2 f_back st d :
  heap st !! default f_back variables = Some d →
  args1 ≠ [] → args2 ≠ [] →
  (∀ k, k ∈ args1 ↔ k ∈ args2) →
  __call__ self variables args1 f_back st
  = __call__ self variables args2 f_back st.
Proof.
  intros Hr H1 H2 Hset.
  rewrite !(call_unfold _ _ _ _ _ d Hr).
  destruct (filter_names_ext d args1 args2 Hset) as [Hin Hout].
  assert (pickled d args1 = pickled d args2) as ->.
  { destruct args1, args2; try done. }
  by rewrite Hout.
Qed.

(** X17. A call that names only variables the mapping does not have changes
    no mapping and sends a snapshot without pairs, which the consumer's
    loop reads and passes over without touching the window. *)
Theorem no_name_present (self : xtbug) variables args f_back st d :
  heap st !! default f_back variables = Some d →
  args ≠ [] →
  (∀ k, k ∈ args → d !! k = None) →
  heap (__call__ self variables args f_back st).2 = heap st ∧
  snapshot (map_to_list (pickled d args)) = [] ∧
  ∀ r rest,
    Renderer.turn
      (r, XTBugRecord.record st d args ++ rest) = (Ret (), (r, rest)).
Proof.
  intros Hr Hargs Hnone.
  assert (pickled d args = ∅) as Hp.
  { destruct args as [|a args]; [done|]. cbn. apply map_eq. intros k.
    rewrite lookup_requested, lookup_empty. case_decide; auto. }
  assert (filter (λ kv, kv.1 ∉ args) d = d) as Hd.
  { apply map_eq. intros k. rewrite lookup_not_requested.
    case_decide; [by rewrite Hnone|done]. }
  split_and!.
  - rewrite (call_unfold _ _ _ _ _ d Hr), submit_heap, Hd.
    unfold set_heap. cbn. by rewrite insert_id.
  - by rewrite Hp, map_to_list_empty.
  - intros r rest. unfold XTBugRecord.record.
    rewrite Hp, map_to_list_empty, WireFacts.turn_dumps.
    change (snapshot []) with (@nil (string * string)).
    unfold Renderer.render. by rewrite RendererFacts.repaint_same by (by intros [? _]).
Qed.

(** X18. On an instance with a non-blocking descriptor on its pipe, the truth
    test of Python 2 submits the local variables of the frame that asks
    and answers [True]; it changes none of them. *)
Theorem nonzero_answers_true (self : xtbug) f_back st d ino p :
  heap st !! f_back = Some d →
  OS.fds (os st) !! sout self = Some (OS.OPipe ino true) →
  OS.pipes (os st) !! ino = Some p →
  __nonzero__ self f_back st
    = (Ret true, (__call__ self (Some f_back) [] f_back st).2) ∧
  (__call__ self (Some f_back) [] f_back st).1 = Ret () ∧
  heap (__call__ self (Some f_back) [] f_back st).2 = heap st.
Proof.
  intros Hr Hfd Hp.
  assert ((__call__ self (Some f_back) [] f_back st).1 = Ret ()) as Hret.
  { rewrite (call_unfold _ (Some f_back) [] _ _ d Hr), submit_unfold.
    unfold set_heap. cbn [os _pickle].
    destruct (OSFacts.write_nonblock _ _ _
                (Pickle.dumps_with (_pickle st)
                   (snapshot (map_to_list (pickled d [])))) _ Hfd Hp)
      as [-> | (k & _ & _ & ->)]; done. }
  split_and!; [|done|].
  - unfold __nonzero__, bind_.
    destruct (__call__ self (Some f_back) [] f_back st) as [res st'].
    cbn in Hret. by subst res.
  - destruct (__call__ self (Some f_back) [] f_back st) as [res st'] eqn:E.
    apply SubmitFacts.call_frame_rel in E as (_ & _ & _ & _ & Hheap).
    by apply Hheap.
Qed.

End snapshots.
End SnapshotFacts.

(** ** Records longer than an atomic write *)

Module PartialFacts.
Import XTBug XTBugRecord ProducerFacts.

Section partial.
Context `{Countable K} {V : Type} `{!StrOf K} `{!PFormat V}.
Implicit Types (st : pstate (K:=K) (V:=V)) (d : gmap K V) (args : list K).

(** X19. The call ignores the count [os.write] returns. A record longer
    than [PIPE_BUF] that meets a pipe with room for some of its bytes,
    but not for all, is cut: the call returns, the pipe holds what it
    held followed by the first bytes of the record, as many as there was
    room for, and a consumer that gets only those bytes of the record
    ends its loop by an exception without touching the window. *)
Theorem call_cuts_long_record (self : xtbug) variables args f_back st d ino p :
  heap st !! default f_back variables = Some d →
  OS.fds (os st) !! sout self = Some (OS.OPipe ino true) →
  OS.pipes (os st) !! ino = Some p →
  OS.PIPE_BUF < length (record st d args) →
  0 < OS.room (os st) ino p (length (record st d args))
    < length (record st d args) →
  (__call__ self variables args f_back st).1 = Ret () ∧
  OS.pending (sout self) (os (__call__ self variables args f_back st).2)
    = Some (OS.buf p ++
            take (OS.room (os st) ino p (length (record st d args)))
                 (record st d args)) ∧
  ∀ r, ∃ e,
    Renderer.main r
      (take (OS.room (os st) ino p (length (record st d args)))
            (record st d args))
    = Some (e, r).
Proof.
  intros Hr Hfd Hp Hbig [Hroom Hshort]. unfold record in *.
  set (data := Pickle.dumps_with _ _) in *.
  set (k := OS.room (os st) ino p (length data)) in *.
  assert (OS.write (sout self) data (os st) =
          (Ret k,
           OS.set_pipe ino (OS.Pipe (OS.buf p ++ take k data) (OS.cap p))
                       (os st))) as Hw.
  { unfold OS.write. rewrite Hfd, Hp. fold k.
    rewrite decide_False by lia. cbn. by rewrite decide_False by lia. }
  rewrite (call_unfold _ _ _ _ _ d Hr), submit_unfold.
  unfold set_heap. cbn [os _pickle]. fold data. rewrite Hw. cbn.
  split_and!; [done| |].
  - unfold OS.pending. cbn. by rewrite Hfd, lookup_insert_eq.
  - intros r. eapply (LoopFacts.main_truncated_lemma (_pickle st)).
    + apply take_drop.
    + intros Hnil. apply (f_equal length) in Hnil.
      fold data in Hnil. rewrite length_drop in Hnil.
      cbn [length] in Hnil. lia.
Qed.

End partial.
End PartialFacts.

(** ** From the call to the window *)

Module EndToEndFacts.
Import XTBug XTBugRecord Renderer ProducerFacts RendererFacts.

Section end_to_end.
Context `{Countable K} {V : Type} `{!StrOf K} `{!PFormat V}.
Implicit Types (st : pstate (K:=K) (V:=V)) (d : gmap K V) (args : list K).

Lemma format_snapshot_not_empty (m : gmap K V) :
  m ≠ ∅ → format (snapshot (map_to_list m)) ≠ EmptyString.
Proof.
  intros Hm Hf.
  destruct (snapshot (map_to_list m)) as [|each rows] eqn:E.
  - apply (f_equal length) in E. rewrite snapshot_perm, length_fmap in E.
    cbn in E. apply length_zero_iff_nil, map_to_list_empty_iff in E. done.
  - rewrite LayoutFacts.format_cons in Hf.
    pose proof (LayoutFacts.row_not_empty each). by destruct (row each).
Qed.


End end_to_end.
End EndToEndFacts.

(** ** The further properties at concrete runs *)

Module MoreRunFacts.
Import XTBug XTBugRecord Renderer XtermWin Run RunMore.
Local Open Scope string_scope.

(** A name with a NUL byte: the loop clears the window and ends by
    [TypeError]. *)
Example nul_in_name :
  main r0 (Pickle.dumps [(String "a" (String PyStr.NUL "b"), "1")])
  = Some (TypeError, RState EmptyString [Clear] (fits r0)).
Proof. reflexivity. Qed.

(** The user interrupts the consumer after the first of two records: it
    removes the pipe, prints its last line and returns. *)
Example interrupted_run :
  _xterm_win "0" r0
    (concat ((λ rec, Pickle.dumps_with rec.1 rec.2) <$> recs)) c_int
  = (Ret (),
     CState (OS.set_fs (delete (pipe_of "0") (OS.fs (cos c_int))) (cos c_int))
            ["Exited! Please close this window..."] true (Some 1)).
Proof. reflexivity. Qed.

(** A terminal that refuses the set-up calls: the consumer removes the
    pipe and ends by [curses.error], printing nothing. *)
Example terminal_refuses :
  _xterm_win "0" r0 []
    (CState (os st1) [] false None)
  = (Raise CursesError,
     CState (OS.set_fs (delete (pipe_of "0") (OS.fs (os st1))) (os st1))
            [] false None).
Proof. reflexivity. Qed.

Lemma format_rows_witness :
  format [("a", "1")] ≠ EmptyString.
Proof.
  intros Hf. apply (proj1 (proj1 (proj2 LayoutFacts.format_rows) _)) in Hf.
  discriminate Hf.
Defined.

Lemma main_renders_in_order_witness :
  (fits r0 too_long = true ∧
   Forall (λ rec,
             Forall (λ each, PyStr.contains PyStr.NUL each.1 = false ∧
                             PyStr.contains PyStr.NUL each.2 = false) rec.2)
          recs) ∧
  main r0 (concat ((λ rec, Pickle.dumps_with rec.1 rec.2) <$> recs)) =
    Some (EOFError, foldl (λ r rows, (render rows r).2) r0 recs.*2) ∧
  outprev (foldl (λ r rows, (render rows r).2) r0 recs.*2)
    = foldl (λ prev rows,
               if decide (format rows = EmptyString) then prev
               else format rows)
            (outprev r0) recs.*2.
Proof.
  assert (Forall (λ rec : Pickle.memo_policy * list (string * string),
                    Forall (λ each, PyStr.contains PyStr.NUL each.1 = false ∧
                                    PyStr.contains PyStr.NUL each.2 = false)
                           rec.2)
                 recs) as Hnul
    by (repeat constructor).
  split; [split; [reflexivity|exact Hnul]|].
  apply (LoopFacts.main_renders_in_order recs r0 eq_refl Hnul).
Defined.

Lemma main_refused_text_witness :
  (format [("a", "0123456789012345678901234567890123456789")] ≠ EmptyString ∧
   format [("a", "0123456789012345678901234567890123456789")] ≠ outprev r_small ∧
   fits r_small (format [("a", "0123456789012345678901234567890123456789")])
     = false ∧
   PyStr.contains PyStr.NUL
     (format [("a", "0123456789012345678901234567890123456789")]) = false ∧
   fits r_small too_long = true) ∧
  turn (r_small, (long_row ++ [])%list) =
    (Ret (),
     (RState (format [("a", "0123456789012345678901234567890123456789")])
             (ops r_small ++ [Clear; AddStr too_long; Refresh])%list
             (fits r_small),
      [])).
Proof.
  assert (format [("a", "0123456789012345678901234567890123456789")]
          ≠ EmptyString) as H1 by (vm_compute; discriminate).
  assert (format [("a", "0123456789012345678901234567890123456789")]
          ≠ outprev r_small) as H2 by (vm_compute; discriminate).
  split; [split_and!; [exact H1|exact H2|reflexivity..]|].
  exact (proj1 (proj2 (LoopFacts.main_refused_text Pickle.pickle_py
                         [("a", "0123456789012345678901234567890123456789")]
                         r_small [] H1 H2 eq_refl))
           eq_refl eq_refl).
Defined.

Lemma main_truncated_record_witness :
  ((take 5 long_row ++ drop 5 long_row)%list
     = Pickle.dumps_with Pickle.pickle_py
         [("a", "0123456789012345678901234567890123456789")] ∧
   drop 5 long_row ≠ []) ∧
  ∃ e, main r0 (take 5 long_row) = Some (e, r0).
Proof.
  assert (drop 5 long_row ≠ []) as Hq by (vm_compute; discriminate).
  split; [split; [reflexivity|exact Hq]|].
  apply (LoopFacts.main_truncated_record Pickle.pickle_py
           [("a", "0123456789012345678901234567890123456789")]
           (take 5 long_row) (drop 5 long_row) r0); [reflexivity|exact Hq].
Defined.

Lemma xterm_win_removes_pipe_witness :
  ((OS.dir_writable (cos c0) = true ∧
    OS.fs (cos c0) !! pipe_of "0" = Some (OS.Fifo 0) ∧
    OS.Fifo 0 ≠ OS.Directory) ∧
   (term_ok c0 = true ∧ fits r0 too_long = true ∧
    Forall (λ rec,
              Forall (λ each, PyStr.contains PyStr.NUL each.1 = false ∧
                              PyStr.contains PyStr.NUL each.2 = false) rec.2)
           recs)) ∧
  _xterm_win "0" r0
    (concat ((λ rec, Pickle.dumps_with rec.1 rec.2) <$> recs)) c0
  = (Ret (),
     CState (OS.set_fs (delete (pipe_of "0") (OS.fs (cos c0))) (cos c0))
            (stdout c0 ++ ["Exited! Please close this window..."])%list
            (term_ok c0) (sigint c0)).
Proof.
  assert (OS.Fifo 0 ≠ OS.Directory) as Hn by discriminate.
  assert (Forall (λ rec : Pickle.memo_policy * list (string * string),
                    Forall (λ each, PyStr.contains PyStr.NUL each.1 = false ∧
                                    PyStr.contains PyStr.NUL each.2 = false)
                           rec.2)
                 recs) as Hnul
    by (repeat constructor).
  split; [split; split_and!; [reflexivity|reflexivity|exact Hn|
                              reflexivity|reflexivity|exact Hnul]|].
  apply (proj1 (XtermWinFacts.xterm_win_removes_pipe "0" r0 c0 (OS.Fifo 0)
                  eq_refl eq_refl Hn) recs eq_refl eq_refl Hnul).
Defined.


Lemma pipe_names_distinct_witness :
  _PIPE 0 ≠ _PIPE 1 ∧ pipe_of (pretty 1) ≠ _PIPE 0.
Proof.
  split; intros Hn.
  - apply (proj1 (proj1 (ChannelFacts.pipe_names_distinct 0 1))) in Hn.
    discriminate Hn.
  - apply (proj1 (proj2 (ChannelFacts.pipe_names_distinct 1 0))) in Hn.
    discriminate Hn.
Defined.

Lemma init_frame_witness :
  ("/tmp/other" ≠ _PIPE (_count st_stale) ∧
   (__init__ st_no_xterm).1 = Raise OSError ∧
   (OS.dir_writable (os st_no_xterm) = true ∧
    OS.fs (os st_no_xterm) !! _PIPE (_count st_no_xterm)
      ≠ Some OS.Directory)) ∧
  OS.fs (os (__init__ st_stale).2) !! "/tmp/other"
    = OS.fs (os st_stale) !! "/tmp/other" ∧
  OS.fds (os (__init__ st_no_xterm).2) = OS.fds (os st_no_xterm) ∧
  OS.fs (os (__init__ st_no_xterm).2) !! _PIPE (_count st_no_xterm)
    = Some (OS.Fifo (OS.next_ino (os st_no_xterm))).
Proof.
  assert ("/tmp/other" ≠ _PIPE (_count st_stale)) as Hne
    by (vm_compute; discriminate).
  assert (OS.dir_writable (os st_no_xterm) = true ∧
          OS.fs (os st_no_xterm) !! _PIPE (_count st_no_xterm)
            ≠ Some OS.Directory) as Hok
    by (split; [reflexivity|vm_compute; discriminate]).
  split; [split; [exact Hne|split; [reflexivity|exact Hok]]|].
  split.
  - apply (proj1 (proj2 (proj2 (ChannelFacts.init_frame st_stale)))
             "/tmp/other" Hne).
  - destruct (proj2 (proj2 (proj2 (proj2 (proj2
                (ChannelFacts.init_frame st_no_xterm)))))
              OSError eq_refl) as (_ & Hfds & _ & Hleft).
    split; [exact Hfds|exact (Hleft Hok)].
Defined.

Lemma two_instances_independent_witness :
  (__init__ st0 = (Ret self0, st1) ∧ __init__ st1 = (Ret self1, st2)) ∧
  _mycount self1 = S (_mycount self0) ∧
  _pipe self0 ≠ _pipe self1 ∧
  sout self0 ≠ sout self1 ∧
  ∃ ia ib,
    ia ≠ ib ∧
    OS.fs (os st2) !! _pipe self0 = Some (OS.Fifo ia) ∧
    OS.fs (os st2) !! _pipe self1 = Some (OS.Fifo ib) ∧
    OS.fds (os st2) !! sout self0 = Some (OS.OPipe ia true) ∧
    OS.fds (os st2) !! sout self1 = Some (OS.OPipe ib true) ∧
    OS.pipes (os st2) !! ia = OS.pipes (os st1) !! ia.
Proof.
  assert (__init__ st0 = (Ret self0, st1)) as Ha.
  { transitivity ((__init__ st0).1, (__init__ st0).2);
      [by destruct (__init__ st0)|f_equal; reflexivity]. }
  assert (__init__ st1 = (Ret self1, st2)) as Hb.
  { transitivity ((__init__ st1).1, (__init__ st1).2);
      [by destruct (__init__ st1)|f_equal; reflexivity]. }
  split; [exact (conj Ha Hb)|].
  exact (ChannelFacts.two_instances_independent st0 self0 self1 st1 st2 Ha Hb).
Defined.

Lemma call_frame_witness :
  heap (__call__ self0 (Some 0) [] 0 st1).2 = heap st1.
Proof.
  apply (proj2 (proj2 (proj2 (proj2
           (SubmitFacts.call_frame self0 (Some 0) [] 0 st1))))).
  reflexivity.
Defined.

Lemma call_delivers_whole_witness :
  (heap st1 !! default 0 (Some 0) = Some d0 ∧
   OS.fds (os st1) !! sout self0 = Some (OS.OPipe 0 true) ∧
   OS.pipes (os st1) !! 0 = Some (OS.Pipe [] 4096) ∧
   (length (record st1 d0 ["a"])
    ≤ OS.room (os st1) 0 (OS.Pipe [] 4096) (length (record st1 d0 ["a"])))%nat) ∧
  (__call__ self0 (Some 0) ["a"] 0 st1).1 = Ret () ∧
  OS.pending (sout self0) (os (__call__ self0 (Some 0) ["a"] 0 st1).2)
    = Some ([] ++ record st1 d0 ["a"])%list.
Proof.
  assert (length (record st1 d0 ["a"])
          ≤ OS.room (os st1) 0 (OS.Pipe [] 4096)
              (length (record st1 d0 ["a"])))%nat as Hfit
    by (apply Nat.leb_le; vm_compute; reflexivity).
  split; [split_and!; [reflexivity..|exact Hfit]|].
  destruct (SubmitFacts.call_delivers_whole self0 (Some 0) ["a"] 0 st1 d0 0
              true (OS.Pipe [] 4096) eq_refl eq_refl eq_refl Hfit)
    as (Hret & Hpend & _).
  split; [exact Hret|exact Hpend].
Defined.


Lemma call_after_del_ignored_witness :
  (is_Some (OS.fds (os st1) !! sout self0) ∧
   heap st1 !! default 0 (Some 0) = Some d0) ∧
  (__del__ self0 st1).1 = Ret () ∧
  (__call__ self0 (Some 0) [] 0 (__del__ self0 st1).2).1 = Ret () ∧
  os (__call__ self0 (Some 0) [] 0 (__del__ self0 st1).2).2
    = os (__del__ self0 st1).2.
Proof.
  assert (is_Some (OS.fds (os st1) !! sout self0)) as Hfd
    by (exists (OS.OPipe 0 true); reflexivity).
  split; [split; [exact Hfd|reflexivity]|].
  apply (SubmitFacts.call_after_del_ignored self0 (Some 0) [] 0 st1 d0 Hfd).
  reflexivity.
Defined.

Lemma snapshot_canonical_witness :
  [("a", VInt 1); ("b", VStr "x")] ≡ₚ [("b", VStr "x"); ("a", VInt 1)] ∧
  snapshot [("a", VInt 1); ("b", VStr "x")]
  = snapshot [("b", VStr "x"); ("a", VInt 1)].
Proof.
  assert ([("a", VInt 1); ("b", VStr "x")] ≡ₚ [("b", VStr "x"); ("a", VInt 1)])
    as Hp by apply perm_swap.
  split; [exact Hp|].
  apply (proj1 (SnapshotFacts.snapshot_canonical _ _ Hp)).
Defined.

Lemma names_as_a_set_witness :
  (heap st1 !! default 0 (Some 0) = Some d0 ∧
   ∀ k, k ∈ ["a"; "a"; "z"] ↔ k ∈ ["z"; "a"]) ∧
  __call__ self0 (Some 0) ["a"; "a"; "z"] 0 st1
  = __call__ self0 (Some 0) ["z"; "a"] 0 st1.
Proof.
  assert (∀ k : string, k ∈ ["a"; "a"; "z"] ↔ k ∈ ["z"; "a"]) as Hset
    by set_solver.
  split; [split; [reflexivity|exact Hset]|].
  apply (SnapshotFacts.names_as_a_set self0 (Some 0) ["a"; "a"; "z"]
           ["z"; "a"] 0 st1 d0); [reflexivity|discriminate|discriminate|].
  exact Hset.
Defined.

Lemma no_name_present_witness :
  (heap st1 !! default 0 (Some 0) = Some d0 ∧
   ∀ k, k ∈ ["z"] → d0 !! k = None) ∧
  heap (__call__ self0 (Some 0) ["z"] 0 st1).2 = heap st1 ∧
  snapshot (map_to_list (pickled d0 ["z"])) = [].
Proof.
  assert (∀ k : string, k ∈ ["z"] → d0 !! k = None) as Hnone.
  { intros k Hk. apply list_elem_of_singleton in Hk. subst k. reflexivity. }
  split; [split; [reflexivity|exact Hnone]|].
  assert (["z"] ≠ @nil string) as Hargs by discriminate.
  destruct (SnapshotFacts.no_name_present self0 (Some 0) ["z"] 0 st1 d0
              eq_refl Hargs Hnone) as (Hheap & Hsnap & _).
  split; [exact Hheap|exact Hsnap].
Defined.

Lemma nonzero_answers_true_witness :
  (heap st1 !! 0 = Some d0 ∧
   OS.fds (os st1) !! sout self0 = Some (OS.OPipe 0 true) ∧
   OS.pipes (os st1) !! 0 = Some (OS.Pipe [] 4096)) ∧
  __nonzero__ self0 0 st1
    = (Ret true, (__call__ self0 (Some 0) [] 0 st1).2) ∧
  heap (__call__ self0 (Some 0) [] 0 st1).2 = heap st1.
Proof.
  split; [split_and!; reflexivity|].
  destruct (SnapshotFacts.nonzero_answers_true self0 0 st1 d0 0
              (OS.Pipe [] 4096) eq_refl eq_refl eq_refl)
    as (Hnz & _ & Hheap).
  split; [exact Hnz|exact Hheap].
Defined.

(** A record of 5029 bytes on a pipe of one page that holds 100 bytes:
    Linux takes 933 bytes of it. *)
Lemma call_cuts_long_record_witness :
  (heap st_big !! default 0 (Some 0) = Some d_big ∧
   OS.fds (os st_big) !! sout self0 = Some (OS.OPipe 0 true) ∧
   OS.pipes (os st_big) !! 0
     = Some (OS.Pipe (replicate 100 "."%char) 4096) ∧
   (OS.PIPE_BUF < length (record st_big d_big []))%nat ∧
   (0 < OS.room (os st_big) 0 (OS.Pipe (replicate 100 "."%char) 4096)
          (length (record st_big d_big []))
      < length (record st_big d_big []))%nat) ∧
  length (record st_big d_big []) = 4096 + 933 ∧
  (__call__ self0 (Some 0) [] 0 st_big).1 = Ret () ∧
  length <$> OS.pending (sout self0)
               (os (__call__ self0 (Some 0) [] 0 st_big).2)
    = Some 1033.
Proof.
  assert (OS.PIPE_BUF < length (record st_big d_big []))%nat as Hbig
    by (apply Nat.ltb_lt; vm_compute; reflexivity).
  assert (0 < OS.room (os st_big) 0 (OS.Pipe (replicate 100 "."%char) 4096)
                (length (record st_big d_big []))
            < length (record st_big d_big []))%nat as Hroom
    by (split; apply Nat.ltb_lt; vm_compute; reflexivity).
  split; [do 3 (split; [reflexivity|]); split; [exact Hbig|exact Hroom]|].
  destruct (PartialFacts.call_cuts_long_record self0 (Some 0) [] 0 st_big
              d_big 0 (OS.Pipe (replicate 100 "."%char) 4096)
              eq_refl eq_refl eq_refl Hbig Hroom)
    as (Hret & Hpend & _).
  split; [vm_compute; reflexivity|].
  split; [exact Hret|]. rewrite Hpend. vm_compute. reflexivity.
Defined.


End MoreRunFacts.
